(** * TPIE pipelining: the [node] base class (tpie/pipelining/node.h)

    A shallow embedding of the node base class of the pipelining framework
    bundled with keyvi, and the properties its specification states about
    it.  Inline member functions of the header are embedded from their
    bodies; member functions that the header only declares are modelled from
    the specification and marked as such. *)

From Stdlib Require Import ZArith QArith Qround Lia List.
From stdpp Require Import base option gmap strings list fin_maps.

Close Scope Q_scope.
Open Scope Z_scope.

(** ** Machine integers

    [memory_size_type] and [stream_size_type] are unsigned 64-bit integers.
    They are embedded as [Z]; arithmetic that can leave the range is
    followed by [wrap64]. *)

Definition size_type_max : Z := 2 ^ 64 - 1.

Definition wrap64 (z : Z) : Z := z mod 2 ^ 64.

Definition in_range64 (z : Z) : Prop := 0 ≤ z ≤ size_type_max.

(** ** Run-time typed values ([boost::any])

    The template parameters of [forward], [fetch], [set_datastructure] and
    [get_datastructure] range over the C++ types of the program.  A
    [TypeUniverse] names them: codes with decidable equality (what
    [typeid] compares), the values of each code, and the implementation
    defined [typeid(T).name()]. *)

Class TypeUniverse := {
  type_info : Type;
  type_info_eq_dec :: EqDecision type_info;
  denote : type_info → Type;
  type_name : type_info → string;
  void_name : string;
  bad_any_cast_what : string
}.

(** ** Progress indicators *)

(** Modelled from the spec: progress_indicator_base (its header is not
    among the sources).  The spec treats the indicator as a consumer of
    [init]/[step]/[refresh]/[done] calls and leaves its rendering out of
    scope, so an indicator is the list of calls it has received, oldest
    first.  Only [step] is called from node.h. *)
Inductive indicator_call : Type :=
| call_step (k : Z).

Abbreviation progress_indicator_base := (list indicator_call).

Section WithTypes.
Context `{TypeUniverse}.

(** A [boost::any] is empty or holds a value together with its type. *)
Inductive any : Type :=
| any_empty
| any_of (T : type_info) (v : denote T).

(** [a.type().name()]; an empty [any] has type [void]. *)
Definition any_type_name (a : any) : string :=
  match a with
  | any_empty => void_name
  | any_of T _ => type_name T
  end.

Definition any_holds (T : type_info) (a : any) : Prop :=
  match a with
  | any_empty => False
  | any_of T' _ => T' = T
  end.

(** [boost::any_cast<T>(a)] by value: [None] stands for the
    [boost::bad_any_cast] it throws when the held type is not [T]. *)
Definition any_cast (T : type_info) (a : any) : option (denote T) :=
  match a with
  | any_empty => None
  | any_of T' v =>
      match decide (T' = T) with
      | left e => Some (eq_rect T' denote v T e)
      | right _ => None
      end
  end.

(** ** Exceptions and outcomes *)

Inductive exception : Type :=
| not_initiator_node
| invalid_argument_exception (what : string)
| tpie_exception (what : string)
| bad_any_cast.

(** What stops the program outright: a failed [assert] or a call through a
    pointer that refers to no object. *)
Inductive fault : Type :=
| assertion_failed
| invalid_pointer.

(** The result of running a member function on a state [S]: it returns, it
    throws (the state reached so far is kept, since the object survives the
    unwinding), or the program stops. *)
Inductive outcome (S A : Type) : Type :=
| Returns (a : A) (s : S)
| Throws (e : exception) (s : S)
| Aborts (f : fault).

Arguments Returns {S A} a s.
Arguments Throws {S A} e s.
Arguments Aborts {S A} f.

Definition method (S A : Type) : Type := S → outcome S A.

Definition method_ret {S A} (a : A) : method S A := λ s, Returns a s.

Definition method_bind {S A B} (f : A → method S B) (c : method S A) : method S B :=
  λ s, match c s with
       | Returns a s' => f a s'
       | Throws e s' => Throws e s'
       | Aborts w => Aborts w
       end.

#[export] Instance method_mret {S} : MRet (method S) := @method_ret S.
#[export] Instance method_mbind {S} : MBind (method S) := @method_bind S.

Definition throw {S A} (e : exception) : method S A := λ s, Throws e s.

Definition get_st {S} : method S S := λ s, Returns s s.

Definition modify {S} (f : S → S) : method S unit := λ s, Returns tt (f s).

(** [assert(b)] with assertions compiled in. *)
Definition assert {S} (b : bool) : method S unit :=
  λ s, if b then Returns tt s else Aborts assertion_failed.

(** ** The data model of node.h *)

(** [priority_type] is declared in priority_type.h as an enumeration; only
    its being an integral value matters here.  Members of type [double]
    are embedded as rationals: node.h stores and returns them and does no
    arithmetic on them. *)
Definition priority_type : Type := Z.

Record node_parameters : Type := {
  minimumMemory : Z;
  maximumMemory : Z;
  memoryFraction : Q;
  name : string;
  namePriority : priority_type;
  stepsTotal : Z
}.

Inductive STATE : Type :=
| STATE_FRESH
| STATE_IN_PREPARE
| STATE_AFTER_PREPARE
| STATE_IN_PROPAGATE
| STATE_AFTER_PROPAGATE
| STATE_IN_BEGIN
| STATE_AFTER_BEGIN
| STATE_IN_END
| STATE_AFTER_END.

#[export] Instance STATE_eq_dec : EqDecision STATE.
Proof. solve_decision. Defined.

(** [node::datastructure_info_t]. *)
Record datastructure_info_t : Type := {
  ds_min : Z;
  ds_max : Z;
  ds_priority : Q
}.

(** A [node_token] carries the node's id and a handle on the node map it is
    registered in. *)
Record node_token : Type := {
  token_id : Z;
  token_map : N
}.

(** The private members of [node], in declaration order.  Pointers to
    progress indicators are addresses into the environment; [None] is the
    null pointer. *)
Record node : Type := {
  token : node_token;
  m_parameters : node_parameters;
  m_availableMemory : Z;
  m_values : gmap string (any * bool);
  m_datastructures : gmap string datastructure_info_t;
  m_flushPriority : Z;
  m_stepsLeft : Z;
  m_pi : option N;
  m_state : STATE;
  m_piProxy : option N;
  m_plotOptions : Z
}.

(** Field updates, written out: C++ assigns one member and leaves the
    others alone. *)
Definition set_m_parameters (p : node_parameters) (n : node) : node :=
  {| token := token n; m_parameters := p;
     m_availableMemory := m_availableMemory n; m_values := m_values n;
     m_datastructures := m_datastructures n;
     m_flushPriority := m_flushPriority n; m_stepsLeft := m_stepsLeft n;
     m_pi := m_pi n; m_state := m_state n; m_piProxy := m_piProxy n;
     m_plotOptions := m_plotOptions n |}.

Definition set_m_availableMemory (v : Z) (n : node) : node :=
  {| token := token n; m_parameters := m_parameters n;
     m_availableMemory := v; m_values := m_values n;
     m_datastructures := m_datastructures n;
     m_flushPriority := m_flushPriority n; m_stepsLeft := m_stepsLeft n;
     m_pi := m_pi n; m_state := m_state n; m_piProxy := m_piProxy n;
     m_plotOptions := m_plotOptions n |}.

Definition set_m_values (v : gmap string (any * bool)) (n : node) : node :=
  {| token := token n; m_parameters := m_parameters n;
     m_availableMemory := m_availableMemory n; m_values := v;
     m_datastructures := m_datastructures n;
     m_flushPriority := m_flushPriority n; m_stepsLeft := m_stepsLeft n;
     m_pi := m_pi n; m_state := m_state n; m_piProxy := m_piProxy n;
     m_plotOptions := m_plotOptions n |}.

Definition set_m_stepsLeft (v : Z) (n : node) : node :=
  {| token := token n; m_parameters := m_parameters n;
     m_availableMemory := m_availableMemory n; m_values := m_values n;
     m_datastructures := m_datastructures n;
     m_flushPriority := m_flushPriority n; m_stepsLeft := v;
     m_pi := m_pi n; m_state := m_state n; m_piProxy := m_piProxy n;
     m_plotOptions := m_plotOptions n |}.

Definition set_name_field (s : string) (p : node_parameters) : node_parameters :=
  {| minimumMemory := minimumMemory p; maximumMemory := maximumMemory p;
     memoryFraction := memoryFraction p; name := s;
     namePriority := namePriority p; stepsTotal := stepsTotal p |}.

(** ** What lives outside the node *)

(** Modelled from the spec: bits::node_map (tokens.h is not among the
    sources).  The spec describes it as a mapping from node ids to node
    references together with a per-name table of shared datastructures
    [{name → (info, opaque_value)}]; node references are addresses. *)
Record node_map : Type := {
  nm_owners : gmap Z N;
  nm_datastructures : gmap string (datastructure_info_t * any)
}.

(** What [log_warning()] receives. *)
Inductive diagnostic : Type :=
| warning_text (s : string)
| step_overflow_diagnostic (node_name : string) (remaining : Z).

(** The objects a member function of a node can touch: the node itself,
    the node map its token refers to ([get_node_map()]), the warning log
    and the progress indicators, by address. *)
Record world : Type := {
  this : node;
  the_node_map : node_map;
  log_warning : list diagnostic;
  indicators : gmap N progress_indicator_base
}.

Definition on_this (f : node → node) (w : world) : world :=
  {| this := f (this w); the_node_map := the_node_map w;
     log_warning := log_warning w; indicators := indicators w |}.

Definition set_datastructures
    (t : gmap string (datastructure_info_t * any)) (w : world) : world :=
  {| this := this w;
     the_node_map := {| nm_owners := nm_owners (the_node_map w);
                        nm_datastructures := t |};
     log_warning := log_warning w; indicators := indicators w |}.

Definition log_append (d : diagnostic) (w : world) : world :=
  {| this := this w; the_node_map := the_node_map w;
     log_warning := log_warning w ++ [d]; indicators := indicators w |}.

Definition set_indicators (i : gmap N progress_indicator_base) (w : world) : world :=
  {| this := this w; the_node_map := the_node_map w;
     log_warning := log_warning w; indicators := i |}.

(** ** Accessors (node.h, lines 104-150 and 236-309) *)

Definition get_minimum_memory (n : node) : Z := minimumMemory (m_parameters n).
Definition get_maximum_memory (n : node) : Z := maximumMemory (m_parameters n).
Definition get_memory_fraction (n : node) : Q := memoryFraction (m_parameters n).
Definition get_id (n : node) : Z := token_id (token n).
Definition get_name_priority (n : node) : priority_type := namePriority (m_parameters n).
Definition get_steps (n : node) : Z := stepsTotal (m_parameters n).
Definition get_state (n : node) : STATE := m_state n.

Definition get_progress_indicator (n : node) : option N := m_pi n.
Definition get_plot_options (n : node) : Z := m_plotOptions n.
Definition get_flush_priority (n : node) : Z := m_flushPriority n.

(** [void set_progress_indicator(progress_indicator_base * pi) { m_pi = pi; }] *)
Definition set_progress_indicator (pi : option N) (n : node) : node :=
  {| token := token n; m_parameters := m_parameters n;
     m_availableMemory := m_availableMemory n; m_values := m_values n;
     m_datastructures := m_datastructures n;
     m_flushPriority := m_flushPriority n; m_stepsLeft := m_stepsLeft n;
     m_pi := pi; m_state := m_state n; m_piProxy := m_piProxy n;
     m_plotOptions := m_plotOptions n |}.

(** [void set_state(STATE s) { m_state = s; }] *)
Definition set_state (s : STATE) (n : node) : node :=
  {| token := token n; m_parameters := m_parameters n;
     m_availableMemory := m_availableMemory n; m_values := m_values n;
     m_datastructures := m_datastructures n;
     m_flushPriority := m_flushPriority n; m_stepsLeft := m_stepsLeft n;
     m_pi := m_pi n; m_state := s; m_piProxy := m_piProxy n;
     m_plotOptions := m_plotOptions n |}.

(** [set_breadcrumb]:
    [name = name.empty() ? breadcrumb : (breadcrumb + " | " + name)]. *)
Definition set_breadcrumb (breadcrumb : string) (n : node) : node :=
  let p := m_parameters n in
  set_m_parameters
    (set_name_field
       (if bool_decide (name p = EmptyString) then breadcrumb
        else breadcrumb +:+ " | " +:+ name p) p) n.

(** ** Progress accounting (node.h, lines 483-503) *)

(** Modelled from the spec: node::step_overflow, which node.h declares and
    node.cpp defines.  The spec: the overflow handler reports a diagnostic
    and clamps [steps_left] to zero; one diagnostic per overflowing call.
    The handler takes no argument, so the diagnostic carries what it can
    see: the name of the node and the budget that was left. *)
Definition step_overflow : method world unit :=
  modify (λ w,
    log_append
      (step_overflow_diagnostic (name (m_parameters (this w)))
                                (m_stepsLeft (this w)))
      (on_this (set_m_stepsLeft 0) w)).

(** Modelled from the spec: progress_indicator_base::step, called as
    [m_pi->step(steps)].  The call is delivered to the indicator [m_pi]
    points to; through a null or dangling pointer the program stops. *)
Definition indicator_step (p : option N) (steps : Z) : method world unit :=
  λ w, match p with
       | None => Aborts invalid_pointer
       | Some a =>
           match indicators w !! a with
           | None => Aborts invalid_pointer
           | Some calls =>
               Returns tt (set_indicators
                             (<[a := calls ++ [call_step steps]]> (indicators w)) w)
           end
       end.

(** The condition of the [assert] that opens [step]; STATE_IN_END is listed
    twice in the source. *)
Definition step_assertion (n : node) : bool :=
  bool_decide (get_state n = STATE_IN_END)
  || bool_decide (get_state n = STATE_IN_BEGIN)
  || bool_decide (get_state n = STATE_AFTER_BEGIN)
  || bool_decide (get_state n = STATE_IN_END).

(** [void step(stream_size_type steps = 1)]. *)
Definition step (steps : Z) : method world unit :=
  w ← get_st;
  assert (step_assertion (this w));;
  (if m_stepsLeft (this w) <? steps
   then step_overflow
   else modify (on_this (λ n, set_m_stepsLeft (wrap64 (m_stepsLeft n - steps)) n)));;
  w' ← get_st;
  indicator_step (m_pi (this w')) steps.

(** ** Virtual hooks (node.h, lines 158-230)

    A concrete node class is described by its [typeid] name and the hooks it
    overrides; a hook that is not overridden runs the default of [node]. *)
Record node_class : Type := {
  class_name : string;
  override_prepare : option (method world unit);
  override_propagate : option (method world unit);
  override_begin : option (method world unit);
  override_go : option (method world unit);
  override_end : option (method world unit);
  override_can_evacuate : option (method world bool);
  override_evacuate : option (method world unit)
}.

Definition node_prepare : method world unit := mret tt.
Definition node_propagate : method world unit := mret tt.
Definition node_begin : method world unit := mret tt.
Definition node_end : method world unit := mret tt.
Definition node_can_evacuate : method world bool := mret false.
Definition node_evacuate : method world unit := mret tt.

(** [node::go]: warn, then throw [not_initiator_node]. *)
Definition node_go (c : node_class) : method world unit :=
  modify (log_append
            (warning_text ("node subclass " +:+ class_name c
                           +:+ " is not an initiator node")));;
  throw not_initiator_node.

Definition dispatch {A} (override : option (method world A))
    (default : method world A) : method world A :=
  match override with
  | Some f => f
  | None => default
  end.

(** A virtual call [n->go()] on an object of class [c]. *)
Definition go (c : node_class) : method world unit :=
  dispatch (override_go c) (node_go c).

Definition prepare (c : node_class) : method world unit :=
  dispatch (override_prepare c) node_prepare.
Definition propagate (c : node_class) : method world unit :=
  dispatch (override_propagate c) node_propagate.
Definition begin (c : node_class) : method world unit :=
  dispatch (override_begin c) node_begin.
Definition end_ (c : node_class) : method world unit :=
  dispatch (override_end c) node_end.
Definition can_evacuate (c : node_class) : method world bool :=
  dispatch (override_can_evacuate c) node_can_evacuate.
Definition evacuate (c : node_class) : method world unit :=
  dispatch (override_evacuate c) node_evacuate.

(** ** Forwarded values (node.h, lines 411-465) *)

(** [m_values.count(key)]. *)
Definition values_count (key : string) (n : node) : Z :=
  match m_values n !! key with
  | Some _ => 1
  | None => 0
  end.

(** [m_values[key]]: [std::map::operator[]] inserts a value-initialised
    entry when the key is missing and returns the entry. *)
Definition values_index (key : string) : method world (any * bool) :=
  λ w, match m_values (this w) !! key with
       | Some e => Returns e w
       | None =>
           Returns (any_empty, false)
                   (on_this (λ n, set_m_values
                                    (<[key := (any_empty, false)]> (m_values n)) n) w)
       end.

(** [bool can_fetch(std::string key)]. *)
Definition can_fetch (key : string) (n : node) : bool :=
  negb (values_count key n =? 0).

(** [template <typename T> T fetch(std::string key)]. *)
Definition fetch (T : type_info) (key : string) : method world (denote T) :=
  w ← get_st;
  if values_count key (this w) =? 0
  then throw (invalid_argument_exception
                ("Tried to fetch nonexistent key '" +:+ key
                 +:+ "' of type " +:+ type_name T))
  else
    e ← values_index key;
    match any_cast T e.1 with
    | Some v => mret v
    | None =>
        e' ← values_index key;
        throw (invalid_argument_exception
                 ("Trying to fetch key '" +:+ key +:+ "' of type "
                  +:+ type_name T +:+ " but forwarded data was of type "
                  +:+ any_type_name e'.1 +:+ ". Message was: "
                  +:+ bad_any_cast_what))
    end.

(** Modelled from the spec: whether the node already holds
    [(key, (_, true))]. *)
Definition holds_explicit (key : string) (n : node) : bool :=
  match m_values n !! key with
  | Some (_, true) => true
  | _ => false
  end.

(** Modelled from the spec: node::add_forwarded_data, which node.h declares
    and node.cpp defines.  The spec: if the node already holds
    [(key, (_, true))] and the incoming write has [explicit = false], the
    incoming write is dropped; otherwise the incoming write overwrites. *)
Definition add_forwarded_data (key : string) (value : any)
    (explicitForward : bool) (n : node) : node :=
  if holds_explicit key n && negb explicitForward
  then n
  else set_m_values (<[key := (value, explicitForward)]> (m_values n)) n.

(** Modelled from the spec: node::forward_any, which node.h declares and
    node.cpp defines; its effect on the forwarding node itself, which is an
    explicit write.  (The successors of the node receive the same value
    through [add_forwarded_data] with [explicitForward = false].) *)
Definition forward_any (key : string) (value : any) (n : node) : node :=
  add_forwarded_data key value true n.

(** [template <typename T> void forward(std::string key, T value)]. *)
Definition forward (T : type_info) (key : string) (value : denote T)
    (n : node) : node :=
  forward_any key (any_of T value) n.

(** A sequence of incoming writes, applied in order. *)
Definition apply_writes (ws : list (string * any * bool)) (n : node) : node :=
  fold_left (λ acc w, add_forwarded_data w.1.1 w.1.2 w.2 acc) ws n.

(** ** Shared datastructures (node.h, lines 559-584) *)

Definition get_node_map (w : world) : node_map := the_node_map w.

(** [template<typename T> void set_datastructure(name, T datastructure)]. *)
Definition set_datastructure (T : type_info) (nm : string) (datastructure : denote T)
    : method world unit :=
  w ← get_st;
  let structures := nm_datastructures (get_node_map w) in
  match structures !! nm with
  | None => throw (tpie_exception "attempted to set non-registered datastructure")
  | Some i =>
      modify (set_datastructures (<[nm := (i.1, any_of T datastructure)]> structures))
  end.

(** [template<typename T> T get_datastructure(name)]; the
    [boost::bad_any_cast] of a failed cast leaves the function. *)
Definition get_datastructure (T : type_info) (nm : string) : method world (denote T) :=
  w ← get_st;
  let structures := nm_datastructures (get_node_map w) in
  match structures !! nm with
  | None => throw (tpie_exception "attempted to get non-registered datastructure")
  | Some i =>
      match any_cast T i.2 with
      | Some v => mret v
      | None => throw bad_any_cast
      end
  end.

(** Runs of [set_datastructure] calls that return and are all made on names
    other than [nm]. *)
Inductive sets_other (nm : string) : world → world → Prop :=
| sets_other_refl (w : world) : sets_other nm w w
| sets_other_step (w w1 w2 : world) (T : type_info) (nm' : string) (v : denote T) :
    nm' ≠ nm →
    set_datastructure T nm' v w = Returns tt w1 →
    sets_other nm w1 w2 →
    sets_other nm w w2.

(** ** Copying and moving a node (node.h, lines 324-341) *)

(** Modelled from the spec: node::node(const node &), which node.h declares
    and node.cpp defines.  The spec: copying a node preserves token
    identity and re-points the map entry of that id to the new owner.  The
    members are copied; [new_owner] is the address of the object under
    construction. *)
Definition node_copy (other : node) (new_owner : N) (m : node_map) : node * node_map :=
  ({| token := {| token_id := token_id (token other);
                  token_map := token_map (token other) |};
      m_parameters := m_parameters other;
      m_availableMemory := m_availableMemory other;
      m_values := m_values other;
      m_datastructures := m_datastructures other;
      m_flushPriority := m_flushPriority other;
      m_stepsLeft := m_stepsLeft other;
      m_pi := m_pi other; m_state := m_state other;
      m_piProxy := m_piProxy other;
      m_plotOptions := m_plotOptions other |},
   {| nm_owners := <[token_id (token other) := new_owner]> (nm_owners m);
      nm_datastructures := nm_datastructures m |}).

(** Modelled from the spec: node::node(node &&), declared under
    TPIE_CPP_RVALUE_REFERENCE.  The spec states the same of a move as of a
    copy. *)
Definition node_move (other : node) (new_owner : N) (m : node_map) : node * node_map :=
  node_copy other new_owner m.

(** ** Memory assignment *)

(** Modelled from the spec: node::set_available_memory, which node.h
    declares and node.cpp defines; [get_available_memory] reads what it
    stored. *)
Definition set_available_memory (availableMemory : Z) (n : node) : node :=
  set_m_availableMemory availableMemory n.

(** The memory runtime (bits::memory_runtime, a friend of [node]) is not
    among the sources; the definitions below follow section 4.4 of the
    spec and its scenarios 3 and 3b. *)

(** Modelled from the spec: a memory consumer, [{min, max, weight}]. *)
Record consumer : Type := {
  c_min : Z;
  c_max : Z;
  c_weight : Q
}.

(** Modelled from the spec: each node contributes its own
    [{min, max, weight = memory_fraction}]. *)
Definition node_consumer (n : node) : consumer :=
  {| c_min := get_minimum_memory n; c_max := get_maximum_memory n;
     c_weight := get_memory_fraction n |}.

(** Modelled from the spec: each registered datastructure contributes
    [{min, max, weight = priority}]. *)
Definition datastructure_consumer (d : datastructure_info_t) : consumer :=
  {| c_min := ds_min d; c_max := ds_max d; c_weight := ds_priority d |}.

(** Modelled from the spec: a consumer during the distribution, with what
    it holds. *)
Record slot : Type := {
  s_consumer : consumer;
  s_assigned : Z
}.

(** Modelled from the spec: all consumers start at their min. *)
Definition initial_slot (c : consumer) : slot :=
  {| s_consumer := c; s_assigned := c_min c |}.

Definition sum_min (cs : list consumer) : Z :=
  fold_right (λ c acc, c_min c + acc) 0 cs.

Definition assigned_total (ss : list slot) : Z :=
  fold_right (λ s acc, s_assigned s + acc) 0 ss.

(** Modelled from the spec: who takes part in the distribution of the
    remainder.  A consumer that is at its max does not (a consumer with
    [max = min = 0] is skipped; a consumer clamped high has left), and
    neither does one whose weight earns no share (a weight that is not
    positive). *)
Definition takes_part (s : slot) : bool :=
  (s_assigned s <? c_max (s_consumer s))
  && negb (Qle_bool (c_weight (s_consumer s)) 0).

Definition open_weight (ss : list slot) : Q :=
  fold_right (λ s acc, if takes_part s then (c_weight (s_consumer s) + acc)%Q
                       else acc)
             0%Q ss.

(** Modelled from the spec: the part of the remainder [R] that weight [w]
    earns among the total weight [W] (proportional distribution), as a
    whole number of units. *)
Definition share (R : Z) (W w : Q) : Z :=
  Qfloor (inject_Z R * w / W).

(** Modelled from the spec: clamping to [[min, max]]. *)
Definition clamp (lo hi v : Z) : Z := Z.max lo (Z.min hi v).

(** Modelled from the spec: a consumer that takes part receives its share,
    clamped to its bounds. *)
Definition give (R : Z) (W : Q) (s : slot) : slot :=
  if takes_part s then
    let c := s_consumer s in
    {| s_consumer := c;
       s_assigned := clamp (c_min c) (c_max c)
                           (s_assigned s + share R W (c_weight c)) |}
  else s.

(** Modelled from the spec: what is left of the budget [M] is distributed
    proportionally among those who take part. *)
Definition proportional_round (M : Z) (ss : list slot) : list slot :=
  map (give (M - assigned_total ss) (open_weight ss)) ss.

Definition add_one (s : slot) : slot :=
  {| s_consumer := s_consumer s; s_assigned := s_assigned s + 1 |}.

(** No consumer of [rest] that takes part weighs more than [s]. *)
Definition no_heavier (s : slot) (rest : list slot) : bool :=
  forallb (λ t, negb (takes_part t)
                || Qle_bool (c_weight (s_consumer t)) (c_weight (s_consumer s)))
          rest.

(** Modelled from the spec: integer rounding.  When what is left is too
    little for any whole proportional share, one unit goes to the consumer
    whose share of it is the largest, the one of lower id on a tie
    (scenario 3: 8 units among weights 1 and 3 above minima of 1 end as
    2 and 6). *)
Fixpoint give_unit (ss : list slot) : list slot :=
  match ss with
  | [] => []
  | s :: rest =>
      if takes_part s && no_heavier s rest
      then add_one s :: rest
      else s :: give_unit rest
  end.

(** Modelled from the spec: one round of the distribution.  A round that
    hands out nothing leaves the consumers as they are. *)
Definition round (M : Z) (ss : list slot) : list slot :=
  let proportional := proportional_round M ss in
  if assigned_total ss <? assigned_total proportional then proportional
  else
    let with_unit := give_unit ss in
    if (assigned_total ss <? M) && (assigned_total ss <? assigned_total with_unit)
    then with_unit
    else ss.

(** Modelled from the spec: the excess of consumers clamped high is
    redistributed among the others; rounds are iterated to a fixed point,
    that is, until one hands out nothing. *)
Fixpoint redistribute (fuel : nat) (M : Z) (ss : list slot) : list slot :=
  match fuel with
  | O => ss
  | S fuel' =>
      let ss' := round M ss in
      if assigned_total ss <? assigned_total ss'
      then redistribute fuel' M ss'
      else ss
  end.

(** Modelled from the spec: the distribution of a budget among consumers.
    Every round but the last hands out a unit or more, so one round more
    than there are units above the minima is enough. *)
Definition final_slots (M : Z) (cs : list consumer) : list slot :=
  redistribute (S (Z.to_nat (M - sum_min cs))) M (map initial_slot cs).

Definition distribute (M : Z) (cs : list consumer) : list Z :=
  map s_assigned (final_slots M cs).

Inductive memory_error : Type :=
| insufficient_memory.

(** Modelled from the spec: the consumers of a phase are its nodes and its
    registered datastructures, a shared datastructure counting once. *)
Definition phase_consumers (nodes : list node)
    (ds : list (string * datastructure_info_t)) : list consumer :=
  map node_consumer nodes ++ map (λ d, datastructure_consumer d.2) ds.

(** Modelled from the spec: memory assignment for a phase.  It fails when
    the minima exceed the budget; otherwise it yields the nodes with their
    memory set ([set_available_memory]) and the memory of each
    datastructure ([get_datastructure_memory]). *)
Definition assign_memory (M : Z) (nodes : list node)
    (ds : list (string * datastructure_info_t))
    : memory_error + (list node * list (string * Z)) :=
  let cs := phase_consumers nodes ds in
  if M <? sum_min cs then inl insufficient_memory
  else
    let r := distribute M cs in
    inr (zip_with set_available_memory (take (length nodes) r) nodes,
         zip (map fst ds) (drop (length nodes) r)).

(** What the distribution keeps true of every consumer, and of a round. *)
Definition slot_ok (s : slot) : Prop :=
  let c := s_consumer s in
  c_min c ≤ s_assigned s
  ∧ (c_min c ≤ c_max c → s_assigned s ≤ c_max c).

Definition distribution_ok (M : Z) (ss : list slot) : Prop :=
  Forall slot_ok ss ∧ assigned_total ss ≤ M.

(** What a proportional round offers in all, before clamping. *)
Definition shares_total (R : Z) (W : Q) (ss : list slot) : Z :=
  fold_right (λ s acc, (if takes_part s then share R W (c_weight (s_consumer s))
                        else 0) + acc) 0 ss.

Definition total (l : list Z) : Z := fold_right Z.add 0 l.






(** ** The remaining setters (node.h, lines 299-309 and 604-614) *)

(** [void set_plot_options(flags<PLOT> options) { m_plotOptions = options; }] *)
Definition set_plot_options (options : Z) (n : node) : node :=
  {| token := token n; m_parameters := m_parameters n;
     m_availableMemory := m_availableMemory n; m_values := m_values n;
     m_datastructures := m_datastructures n;
     m_flushPriority := m_flushPriority n; m_stepsLeft := m_stepsLeft n;
     m_pi := m_pi n; m_state := m_state n; m_piProxy := m_piProxy n;
     m_plotOptions := options |}.

(** [void set_flush_priority(memory_size_type flushPriority)]. *)
Definition set_flush_priority (flushPriority : Z) (n : node) : node :=
  {| token := token n; m_parameters := m_parameters n;
     m_availableMemory := m_availableMemory n; m_values := m_values n;
     m_datastructures := m_datastructures n;
     m_flushPriority := flushPriority; m_stepsLeft := m_stepsLeft n;
     m_pi := m_pi n; m_state := m_state n; m_piProxy := m_piProxy n;
     m_plotOptions := m_plotOptions n |}.

Definition get_token (n : node) : node_token := token n.

Definition get_datastructures (n : node) : gmap string datastructure_info_t :=
  m_datastructures n.

(** ** Uses of the member functions *)

(** A node that reports its progress in several calls,
    [step(k1); step(k2); ...]. *)
Definition step_all (ks : list Z) : method world unit :=
  foldr (λ k rest, step k;; rest) (mret tt) ks.

(** Factories that are nested name a node from the inside out: the
    breadcrumb at the head of the list is set last. *)
Definition set_breadcrumbs (bs : list string) (n : node) : node :=
  foldr set_breadcrumb n bs.

(** The strings of a list, separated by [" | "]. *)
Fixpoint join_breadcrumbs (l : list string) : string :=
  match l with
  | [] => EmptyString
  | x :: rest =>
      match rest with
      | [] => x
      | _ :: _ => x +:+ " | " +:+ join_breadcrumbs rest
      end
  end.

(** What a caller sees of a call: the value returned or the exception
    thrown; nothing when the program stopped. *)
Definition result_of {S A} (o : outcome S A) : option (exception + A) :=
  match o with
  | Returns a _ => Some (inr a)
  | Throws e _ => Some (inl e)
  | Aborts _ => None
  end.

End WithTypes.

Arguments Returns {S A} a s.
Arguments Throws {S A} e s.
Arguments Aborts {S A} f.

(** ** A small universe of types, for concrete runs *)

Inductive sample_type : Type :=
| ty_size
| ty_string.

Definition sample_type_eq_dec : EqDecision sample_type.
Proof. solve_decision. Defined.

Definition sample_universe : TypeUniverse :=
  {| type_info := sample_type;
     type_info_eq_dec := sample_type_eq_dec;
     denote := λ t, match t with ty_size => Z | ty_string => string end;
     type_name := λ t, match t with ty_size => "m" | ty_string => "Ss" end;
     void_name := "v";
     bad_any_cast_what :=
       "boost::bad_any_cast: failed conversion using boost::any_cast" |}.

Definition sample_parameters : node_parameters :=
  {| minimumMemory := 0; maximumMemory := size_type_max;
     memoryFraction := 1%Q; name := EmptyString; namePriority := 0;
     stepsTotal := 10 |}.

(** A freshly constructed node: nothing forwarded, no indicator yet. *)
Definition sample_node : @node sample_universe :=
  {| token := {| token_id := 7; token_map := 0%N |};
     m_parameters := sample_parameters;
     m_availableMemory := 0;
     m_values := ∅;
     m_datastructures := ∅;
     m_flushPriority := 0;
     m_stepsLeft := 10;
     m_pi := None;
     m_state := STATE_FRESH;
     m_piProxy := None;
     m_plotOptions := 0 |}.

(** The same node inside [begin()], once the executor has given it the
    indicator at address 1. *)
Definition running_node : @node sample_universe :=
  set_state STATE_IN_BEGIN (set_progress_indicator (Some 1%N) sample_node).

Definition sample_info : datastructure_info_t :=
  {| ds_min := 0; ds_max := size_type_max; ds_priority := 1%Q |}.

(** A node map that knows node 7 (owned at address 100) and node 8, with one
    registered datastructure that has not been set yet. *)
Definition sample_map : @node_map sample_universe :=
  {| nm_owners := {[ 7 := 100%N; 8 := 200%N ]};
     nm_datastructures := {[ "table" := (sample_info, any_empty) ]} |}.

Definition sample_world (n : @node sample_universe) : @world sample_universe :=
  {| this := n; the_node_map := sample_map; log_warning := [];
     indicators := {[ 1%N := [] ]} |}.

(** A class that overrides no hook, and an initiator whose [go] does
    nothing. *)
Definition plain_class : @node_class sample_universe :=
  {| class_name := "4sink";
     override_prepare := None; override_propagate := None;
     override_begin := None; override_go := None; override_end := None;
     override_can_evacuate := None; override_evacuate := None |}.

Definition initiator_class : @node_class sample_universe :=
  {| class_name := "6source";
     override_prepare := None; override_propagate := None;
     override_begin := None; override_go := Some (mret tt);
     override_end := None;
     override_can_evacuate := None; override_evacuate := None |}.

(** A node that declares the given memory bounds and fraction. *)
Definition memory_node (lo hi : Z) (fraction : Q) : @node sample_universe :=
  set_m_parameters
    {| minimumMemory := lo; maximumMemory := hi; memoryFraction := fraction;
       name := EmptyString; namePriority := 0; stepsTotal := 0 |}
    sample_node.

(** A node that has forwarded the number of items it will push. *)
Definition explicit_node : @node sample_universe :=
  @forward sample_universe ty_size "n_items" 100 sample_node.

(** A world whose node map has two registered datastructures. *)
Definition two_tables_world : @world sample_universe :=
  {| this := sample_node;
     the_node_map :=
       {| nm_owners := {[ 7 := 100%N ]};
          nm_datastructures :=
            {[ "table" := (sample_info, any_empty);
               "index" := (sample_info, any_empty) ]} |};
     log_warning := [];
     indicators := ∅ |}.

(** * Properties *)

(** Unfolds the plumbing of [method], so that a member function applied to
    a state reduces to its case analysis. *)
Ltac unfold_method :=
  unfold mbind, method_mbind, method_bind, mret, method_mret, method_ret,
         get_st, modify, throw, assert.

Section Properties.
Context `{TypeUniverse}.

(** ** Name and state *)

(** C9. [set_breadcrumb(s)] sets the name to [s] when the name was empty and
    to [s + " | " + old name] otherwise; the other parameters, name priority
    included, and the other members of the node are unchanged. *)
Theorem set_breadcrumb_name (s : string) (n : node) :
  let p := m_parameters n in
  let p' := m_parameters (set_breadcrumb s n) in
  name p' = match name p with
            | EmptyString => s
            | String _ _ => s +:+ " | " +:+ name p
            end
  ∧ minimumMemory p' = minimumMemory p
  ∧ maximumMemory p' = maximumMemory p
  ∧ memoryFraction p' = memoryFraction p
  ∧ namePriority p' = namePriority p
  ∧ stepsTotal p' = stepsTotal p
  ∧ set_m_parameters p (set_breadcrumb s n) = n.
Proof.
  destruct n as [t p av vs dss fp sl pi st pp po]; simpl.
  repeat split.
  destruct (name p); reflexivity.
Qed.

(** C4, as the code has it.  [set_state(s)] stores [s] whatever the current
    state is, IN_BEGIN included, and touches no other member; it raises
    nothing. *)
Theorem set_state_unconditional (s : STATE) (n : node) :
  get_state (set_state s n) = s
  ∧ set_state (get_state n) (set_state s n) = n.
Proof.
  destruct n; split; reflexivity.
Qed.

(** ** Virtual dispatch of [go] *)

(** C7. On a class that does not override [go], the call warns and throws
    [not_initiator_node]; a call of [go] that returns was made on a class
    that overrides it. *)
Theorem go_not_initiator (c : node_class) (w : world) :
  (override_go c = None →
   go c w = Throws not_initiator_node
              (log_append (warning_text ("node subclass " +:+ class_name c
                                         +:+ " is not an initiator node")) w))
  ∧ (∀ w', go c w = Returns tt w' → is_Some (override_go c)).
Proof.
  unfold go, dispatch. split.
  - intros ->. reflexivity.
  - intros w' Hgo. destruct (override_go c) as [f|]; [eauto |].
    discriminate Hgo.
Qed.

(** ** Copy and move *)

(** C8. Copying or moving a node keeps its id, makes the map entry of that
    id refer to the new owner, and leaves every other entry of the node map
    (and the shared datastructures) as it was. *)
Theorem copy_preserves_token (other : node) (new_owner : N) (m : node_map) :
  let r := node_copy other new_owner m in
  get_id r.1 = get_id other
  ∧ nm_owners r.2 !! get_id other = Some new_owner
  ∧ (∀ j, j ≠ get_id other → nm_owners r.2 !! j = nm_owners m !! j)
  ∧ nm_datastructures r.2 = nm_datastructures m
  ∧ node_move other new_owner m = r.
Proof.
  simpl. unfold get_id. repeat split.
  - apply lookup_insert_eq.
  - intros j Hj. apply lookup_insert_ne. congruence.
Qed.

(** ** Forwarded values *)

Lemma holds_explicit_true (key : string) (n : node) :
  holds_explicit key n = true ↔ ∃ v, m_values n !! key = Some (v, true).
Proof.
  unfold holds_explicit. destruct (m_values n !! key) as [[v [|]]|]; split;
    try discriminate; try (intros [? ?]; discriminate); eauto.
Qed.

Lemma add_forwarded_data_other (key key' : string) (a : any) (e : bool) (n : node) :
  key ≠ key' →
  m_values (add_forwarded_data key a e n) !! key' = m_values n !! key'.
Proof.
  intros Hne. unfold add_forwarded_data.
  destruct (holds_explicit key n && negb e); [reflexivity |].
  destruct n; simpl. by apply lookup_insert_ne.
Qed.

Lemma add_forwarded_data_dropped (key : string) (a v : any) (n : node) :
  m_values n !! key = Some (v, true) →
  add_forwarded_data key a false n = n.
Proof.
  intros Hv. unfold add_forwarded_data.
  assert (holds_explicit key n = true) as -> by (apply holds_explicit_true; eauto).
  reflexivity.
Qed.

Lemma add_forwarded_data_written (key : string) (a : any) (e : bool) (n : node) :
  holds_explicit key n && negb e = false →
  m_values (add_forwarded_data key a e n) !! key = Some (a, e).
Proof.
  intros Hc. unfold add_forwarded_data. rewrite Hc.
  destruct n; simpl. apply lookup_insert_eq.
Qed.

(** An explicit entry survives any run of writes in which every write to
    its key is implicit. *)
Lemma apply_writes_sticky (ws : list (string * any * bool)) :
  ∀ (n : node) (key : string) (v : any),
    m_values n !! key = Some (v, true) →
    Forall (λ w, w.1.1 = key → w.2 = false) ws →
    m_values (apply_writes ws n) !! key = Some (v, true).
Proof.
  induction ws as [|[[k a] e] ws IH]; intros n key v Hv Hall; [exact Hv |].
  inversion Hall as [|? ? Hhead Htail]; subst. simpl in Hhead.
  unfold apply_writes; simpl. apply IH; [| exact Htail].
  destruct (decide (k = key)) as [->|Hne].
  - rewrite (Hhead eq_refl). by rewrite (add_forwarded_data_dropped key a v n Hv).
  - by rewrite add_forwarded_data_other.
Qed.

(** What [forward] wrote is explicit, so an implicit write does not replace
    it. *)
Lemma forward_then_implicit (T : type_info) (key : string) (v : denote T)
    (incoming : any) (n : node) :
  add_forwarded_data key incoming false (forward T key v n) = forward T key v n.
Proof.
  apply add_forwarded_data_dropped with (any_of T v).
  unfold forward, forward_any. apply add_forwarded_data_written.
  apply andb_false_r.
Qed.

(** C3. Once a node holds an explicit value for a key, an implicit write of
    that key leaves the node as it is, also after any number of them; every
    other incoming write (explicit, or onto an entry that is not explicit)
    replaces the entry.  Entries of other keys are not touched. *)
Theorem forwarded_explicit_sticky (key : string) (incoming : any) (e : bool) (n : node) :
  (∀ v, m_values n !! key = Some (v, true) → e = false →
        add_forwarded_data key incoming e n = n)
  ∧ (e = true ∨ ¬ (∃ v, m_values n !! key = Some (v, true)) →
     m_values (add_forwarded_data key incoming e n) !! key = Some (incoming, e))
  ∧ (∀ v ws, m_values n !! key = Some (v, true) →
             Forall (λ w, w.1.1 = key → w.2 = false) ws →
             m_values (apply_writes ws n) !! key = Some (v, true))
  ∧ (∀ key', key ≠ key' →
             m_values (add_forwarded_data key incoming e n) !! key' = m_values n !! key')
  ∧ (∀ T v, add_forwarded_data key incoming false (forward T key v n)
            = forward T key v n).
Proof.
  repeat apply conj; [| | | | intros T v; apply forward_then_implicit].
  - intros v Hv ->. by apply add_forwarded_data_dropped with v.
  - intros Hcase. apply add_forwarded_data_written.
    destruct Hcase as [-> | Hnot]; [apply andb_false_r |].
    apply andb_false_intro1. apply not_true_is_false.
    intros Hex. apply Hnot. by apply holds_explicit_true.
  - intros v ws. apply apply_writes_sticky.
  - intros key'. apply add_forwarded_data_other.
Qed.

(** ** Fetch *)

Lemma any_cast_same (T : type_info) (v : denote T) :
  any_cast T (any_of T v) = Some v.
Proof.
  unfold any_cast. destruct (decide (T = T)) as [e|Hne]; [| congruence].
  by rewrite (proof_irrel e eq_refl).
Qed.

Lemma any_cast_mismatch (T : type_info) (a : any) :
  ¬ any_holds T a → any_cast T a = None.
Proof.
  destruct a as [|T' v]; simpl; [reflexivity |].
  intros Hne. destruct (decide (T' = T)); [contradiction | reflexivity].
Qed.

Lemma can_fetch_lookup (key : string) (n : node) :
  can_fetch key n = true ↔ is_Some (m_values n !! key).
Proof.
  unfold can_fetch, values_count.
  destruct (m_values n !! key); simpl; split; eauto; try discriminate.
  intros [? ?]; discriminate.
Qed.

(** C5. [fetch<T>(key)] returns the stored value when the key has an entry
    of type [T]; it throws when the key has no entry, and throws the
    type-mismatch message when the entry holds another type.  The node (its
    map of forwarded values included) is the same after either throw, and
    after a successful fetch. *)
Theorem fetch_typed (T : type_info) (key : string) (w : world) :
  (∀ v e, m_values (this w) !! key = Some (any_of T v, e) →
          fetch T key w = Returns v w)
  ∧ (m_values (this w) !! key = None →
     fetch T key w =
       Throws (invalid_argument_exception
                 ("Tried to fetch nonexistent key '" +:+ key
                  +:+ "' of type " +:+ type_name T)) w)
  ∧ (∀ a e, m_values (this w) !! key = Some (a, e) → ¬ any_holds T a →
            fetch T key w =
              Throws (invalid_argument_exception
                        ("Trying to fetch key '" +:+ key +:+ "' of type "
                         +:+ type_name T +:+ " but forwarded data was of type "
                         +:+ any_type_name a +:+ ". Message was: "
                         +:+ bad_any_cast_what)) w).
Proof.
  unfold fetch, values_count; unfold_method.
  repeat apply conj.
  - intros v e Hv. rewrite Hv; cbn -[any_cast].
    unfold values_index. rewrite Hv; cbn -[any_cast].
    by rewrite any_cast_same.
  - intros Hnone. by rewrite Hnone.
  - intros a e Ha Hty. rewrite Ha; cbn -[any_cast].
    unfold values_index. rewrite Ha; cbn -[any_cast].
    rewrite (any_cast_mismatch T a Hty). by rewrite Ha.
Qed.

(** ** Shared datastructures *)

Lemma set_datastructure_other (T : type_info) (nm nm' : string) (v : denote T)
    (w w1 : world) :
  nm' ≠ nm →
  set_datastructure T nm' v w = Returns tt w1 →
  nm_datastructures (get_node_map w1) !! nm = nm_datastructures (get_node_map w) !! nm.
Proof.
  intros Hne. unfold set_datastructure; unfold_method.
  destruct (nm_datastructures (get_node_map w) !! nm') as [i|]; [| discriminate].
  intros [= <-]. simpl. by apply lookup_insert_ne.
Qed.

Lemma sets_other_lookup (nm : string) (w1 w2 : world) :
  sets_other nm w1 w2 →
  nm_datastructures (get_node_map w2) !! nm = nm_datastructures (get_node_map w1) !! nm.
Proof.
  induction 1 as [w | w wa wb T nm' v Hne Hset _ IH]; [reflexivity |].
  rewrite IH. by apply set_datastructure_other with T nm' v.
Qed.

Lemma get_datastructure_lookup (T : type_info) (nm : string) (w : world)
    (i : datastructure_info_t) (v : denote T) :
  nm_datastructures (get_node_map w) !! nm = Some (i, any_of T v) →
  get_datastructure T nm w = Returns v w
  ∧ ∀ T', T' ≠ T → get_datastructure T' nm w = Throws bad_any_cast w.
Proof.
  intros Hl. unfold get_datastructure; unfold_method.
  rewrite Hl; cbn -[any_cast]. split.
  - by rewrite any_cast_same.
  - intros T' Hne. rewrite any_cast_mismatch; [reflexivity |].
    simpl. congruence.
Qed.

(** C6. On a name that is not registered, [set_datastructure] and
    [get_datastructure] throw.  On a registered name, [set_datastructure]
    returns, and from then on, until the name is set again,
    [get_datastructure<T>] returns the value set and [get_datastructure] at
    any other type throws [bad_any_cast]. *)
Theorem datastructure_set_get (T : type_info) (nm : string) (v : denote T) (w : world) :
  (nm_datastructures (get_node_map w) !! nm = None →
   set_datastructure T nm v w
     = Throws (tpie_exception "attempted to set non-registered datastructure") w
   ∧ ∀ T', get_datastructure T' nm w
     = Throws (tpie_exception "attempted to get non-registered datastructure") w)
  ∧ (is_Some (nm_datastructures (get_node_map w) !! nm) →
     ∃ w1, set_datastructure T nm v w = Returns tt w1
           ∧ ∀ w2, sets_other nm w1 w2 →
                   get_datastructure T nm w2 = Returns v w2
                   ∧ ∀ T', T' ≠ T → get_datastructure T' nm w2 = Throws bad_any_cast w2).
Proof.
  split.
  - intros Hnone.
    unfold set_datastructure, get_datastructure; unfold_method.
    by rewrite Hnone.
  - intros [i Hi].
    unfold set_datastructure; unfold_method.
    rewrite Hi. eexists; split; [reflexivity |].
    intros w2 Hrun. apply get_datastructure_lookup with i.1.
    rewrite (sets_other_lookup nm _ w2 Hrun). simpl. apply lookup_insert_eq.
Qed.

(** ** Progress accounting *)

Lemma step_assertion_allowed (n : node) :
  step_assertion n = true ↔
  get_state n = STATE_IN_BEGIN ∨ get_state n = STATE_AFTER_BEGIN
  ∨ get_state n = STATE_IN_END.
Proof.
  unfold step_assertion. destruct (get_state n); simpl; split;
    intros Hs; try discriminate Hs; try reflexivity; auto;
    destruct Hs as [Hs | [Hs | Hs]]; discriminate Hs.
Qed.

Lemma wrap64_in_range (z : Z) : in_range64 z → wrap64 z = z.
Proof.
  unfold in_range64, size_type_max, wrap64. intros Hz.
  apply Z.mod_small. lia.
Qed.

(** C2. A call [step(k)] that meets the assertion of [step], on a node whose
    indicator pointer refers to an indicator: with [k ≤ steps_left] the
    budget goes down by exactly [k] and nothing is logged; with
    [k > steps_left] the overflow handler logs one diagnostic and leaves the
    budget at zero.  Either way the budget stays within range, [step]
    returns, and the indicator has received [step(k)]. *)
Theorem step_charges_budget (k : Z) (w : world) (a : N)
    (calls : progress_indicator_base) :
  step_assertion (this w) = true →
  m_pi (this w) = Some a →
  indicators w !! a = Some calls →
  in_range64 (m_stepsLeft (this w)) →
  in_range64 k →
  ∃ w', step k w = Returns tt w'
        ∧ indicators w' = <[a := calls ++ [call_step k]]> (indicators w)
        ∧ in_range64 (m_stepsLeft (this w'))
        ∧ (k ≤ m_stepsLeft (this w) →
           m_stepsLeft (this w') = m_stepsLeft (this w) - k
           ∧ log_warning w' = log_warning w)
        ∧ (m_stepsLeft (this w) < k →
           m_stepsLeft (this w') = 0
           ∧ log_warning w' =
               log_warning w
               ++ [step_overflow_diagnostic (name (m_parameters (this w)))
                                            (m_stepsLeft (this w))]).
Proof.
  intros Hassert Hpi Hind Hs Hk.
  unfold step; unfold_method.
  rewrite Hassert.
  destruct (Z.ltb_spec (m_stepsLeft (this w)) k) as [Hlt | Hge].
  - unfold step_overflow, indicator_step; unfold_method.
    destruct w as [n nmap lg ind]; destruct n; simpl in *.
    subst m_pi0. rewrite Hind. eexists; split; [reflexivity |]. simpl.
    repeat apply conj; try reflexivity; try (intros; lia);
      try (intros; split; reflexivity).
    unfold in_range64, size_type_max; lia.
  - unfold indicator_step.
    destruct w as [n nmap lg ind]; destruct n; simpl in *.
    subst m_pi0. rewrite Hind. eexists; split; [reflexivity |]. simpl.
    assert (Hdiff : in_range64 (m_stepsLeft0 - k))
      by (unfold in_range64 in *; lia).
    rewrite (wrap64_in_range _ Hdiff).
    repeat apply conj; try reflexivity; try (intros; lia);
      try (intros; split; reflexivity).
    apply Hdiff.
Qed.

(** C10. [step] asserts that the node is in IN_BEGIN, AFTER_BEGIN or IN_END
    before anything else.  In every other state the call stops at the
    assertion, with nothing charged; in these three states, which are the
    states a node is in while its [begin], [go] and [end] hooks run, the
    assertion does not fail. *)
Theorem step_assertion_states (k : Z) (w : world) :
  let allowed :=
    get_state (this w) = STATE_IN_BEGIN
    ∨ get_state (this w) = STATE_AFTER_BEGIN
    ∨ get_state (this w) = STATE_IN_END in
  (step_assertion (this w) = true ↔ allowed)
  ∧ (¬ allowed → step k w = Aborts assertion_failed)
  ∧ (allowed → step k w ≠ Aborts assertion_failed).
Proof.
  cbv zeta. split; [apply step_assertion_allowed |]. split.
  - intros Hnot.
    assert (Hf : step_assertion (this w) = false).
    { apply not_true_is_false. intros Ht. apply Hnot.
      by apply step_assertion_allowed. }
    unfold step; unfold_method.
    by rewrite Hf.
  - intros Hal. apply step_assertion_allowed in Hal.
    unfold step; unfold_method.
    rewrite Hal.
    destruct (m_stepsLeft (this w) <? k);
      unfold step_overflow, indicator_step; unfold_method; simpl;
      destruct (m_pi (this w)) as [a|]; try discriminate;
      destruct (indicators w !! a); discriminate.
Qed.

(** ** Memory assignment *)

Lemma takes_part_true (s : slot) :
  takes_part s = true →
  s_assigned s < c_max (s_consumer s) ∧ (0 <= c_weight (s_consumer s))%Q.
Proof.
  unfold takes_part. intros Ht. apply andb_true_iff in Ht as [Hlt Hw].
  apply Z.ltb_lt in Hlt. split; [exact Hlt |].
  apply negb_true_iff in Hw.
  apply Qlt_le_weak, Qnot_le_lt. intros Hle.
  apply Qle_bool_iff in Hle. congruence.
Qed.

Lemma share_nonneg (R : Z) (W w : Q) :
  0 ≤ R → (0 <= W)%Q → (0 <= w)%Q → 0 ≤ share R W w.
Proof.
  intros HR HW Hw. unfold share.
  rewrite <- (Qfloor_Z 0). apply Qfloor_resp_le.
  unfold Qdiv. apply Qmult_le_0_compat.
  - apply Qmult_le_0_compat; [| exact Hw].
    change 0%Q with (inject_Z 0). by rewrite <- Zle_Qle.
  - by apply Qinv_le_0_compat.
Qed.

Lemma open_weight_nonneg (ss : list slot) : (0 <= open_weight ss)%Q.
Proof.
  induction ss as [|s ss IH]; simpl; [apply Qle_refl |].
  destruct (takes_part s) eqn:E; [| exact IH].
  apply takes_part_true in E as [_ Hw].
  rewrite <- (Qplus_0_l 0). by apply Qplus_le_compat.
Qed.

Lemma shares_total_le_Q (R : Z) (W : Q) (ss : list slot) :
  (inject_Z (shares_total R W ss) <= inject_Z R * open_weight ss / W)%Q.
Proof.
  induction ss as [|s ss IH]; simpl.
  - unfold Qdiv. rewrite Qmult_0_r, Qmult_0_l. apply Qle_refl.
  - destruct (takes_part s).
    + rewrite inject_Z_plus.
      assert (E : (inject_Z R * (c_weight (s_consumer s) + open_weight ss) / W
                   == inject_Z R * c_weight (s_consumer s) / W
                      + inject_Z R * open_weight ss / W)%Q)
        by (unfold Qdiv; ring).
      rewrite E.
      apply Qplus_le_compat; [apply Qfloor_le | exact IH].
    + exact IH.
Qed.

(** The whole shares of a proportional round add up to no more than the
    remainder. *)
Lemma shares_total_le (R : Z) (ss : list slot) :
  0 ≤ R → shares_total R (open_weight ss) ss ≤ R.
Proof.
  intros HR. rewrite Zle_Qle.
  eapply Qle_trans; [apply shares_total_le_Q |].
  destruct (Qeq_dec (open_weight ss) 0) as [E | NE].
  - rewrite E. unfold Qdiv. rewrite Qmult_0_r, Qmult_0_l.
    change 0%Q with (inject_Z 0). by rewrite <- Zle_Qle.
  - rewrite Qdiv_mult_l by exact NE. apply Qle_refl.
Qed.

Lemma give_ok (R : Z) (W : Q) (s : slot) :
  slot_ok s →
  0 ≤ R → (0 <= W)%Q →
  slot_ok (give R W s)
  ∧ s_consumer (give R W s) = s_consumer s
  ∧ s_assigned (give R W s)
    ≤ s_assigned s + (if takes_part s then share R W (c_weight (s_consumer s))
                      else 0).
Proof.
  unfold slot_ok, give, clamp. intros (Hlo & Hhi) HR HW.
  destruct (takes_part s) eqn:E; simpl.
  - apply takes_part_true in E as [Hlt Hw].
    pose proof (share_nonneg R W _ HR HW Hw) as Hshare.
    repeat apply conj; try reflexivity; intros; lia.
  - repeat apply conj; try reflexivity; try assumption; lia.
Qed.

Lemma map_give_ok (R : Z) (W : Q) (ss : list slot) :
  0 ≤ R → (0 <= W)%Q →
  Forall slot_ok ss →
  Forall slot_ok (map (give R W) ss)
  ∧ map s_consumer (map (give R W) ss) = map s_consumer ss
  ∧ assigned_total (map (give R W) ss) ≤ assigned_total ss + shares_total R W ss.
Proof.
  intros HR HW Hok. induction Hok as [|s ss Hs Hss IH]; simpl.
  - repeat split; [constructor | lia].
  - destruct IH as (IH1 & IH2 & IH3).
    destruct (give_ok R W s Hs HR HW) as (G1 & G2 & G3).
    repeat apply conj.
    + by constructor.
    + by rewrite G2, IH2.
    + lia.
Qed.

Lemma give_unit_ok (ss : list slot) :
  Forall slot_ok ss →
  Forall slot_ok (give_unit ss)
  ∧ map s_consumer (give_unit ss) = map s_consumer ss
  ∧ assigned_total (give_unit ss) ≤ assigned_total ss + 1.
Proof.
  induction 1 as [|s ss Hs Hss IH]; simpl.
  - repeat split; [constructor | lia].
  - destruct (takes_part s && no_heavier s ss) eqn:E; simpl.
    + apply andb_true_iff in E as [E _].
      apply takes_part_true in E as [Hlt _].
      destruct Hs as (Hlo & Hhi).
      repeat apply conj; [| reflexivity | lia].
      constructor; [| exact Hss].
      unfold slot_ok; simpl. split; intros; lia.
    + destruct IH as (IH1 & IH2 & IH3).
      repeat apply conj; [by constructor | by rewrite IH2 | lia].
Qed.

Lemma forallb_false_Exists {A} (f : A → bool) (l : list A) :
  forallb f l = false → Exists (λ x, f x = false) l.
Proof.
  induction l as [|x l IH]; simpl; [discriminate |].
  destruct (f x) eqn:E; simpl; [| by left].
  intros Hl. right. by apply IH.
Qed.

(** As long as a consumer takes part, [give_unit] hands a unit out. *)
Lemma give_unit_progress (ss : list slot) :
  Exists (λ s, takes_part s = true) ss →
  assigned_total (give_unit ss) = assigned_total ss + 1.
Proof.
  induction ss as [|s ss IH]; intros Hex; [inversion Hex |].
  simpl. destruct (takes_part s && no_heavier s ss) eqn:E; simpl; [lia |].
  rewrite IH; [lia |].
  apply andb_false_iff in E as [E | E].
  - inversion Hex as [? ? Hs | ? ? Hrest]; subst; [congruence | exact Hrest].
  - apply forallb_false_Exists in E.
    eapply Exists_impl; [exact E |]. simpl. intros t Ht.
    apply orb_false_iff in Ht as [Ht _]. by apply negb_false_iff in Ht.
Qed.

Lemma round_ok (M : Z) (ss : list slot) :
  distribution_ok M ss →
  distribution_ok M (round M ss)
  ∧ map s_consumer (round M ss) = map s_consumer ss.
Proof.
  intros (Hok & Htot). unfold round. cbv zeta.
  destruct (Z.ltb_spec (assigned_total ss)
                       (assigned_total (proportional_round M ss))) as [_ | _].
  - unfold proportional_round.
    assert (HR : 0 ≤ M - assigned_total ss) by lia.
    destruct (map_give_ok (M - assigned_total ss) (open_weight ss) ss HR
                (open_weight_nonneg ss) Hok) as (R1 & R2 & R3).
    pose proof (shares_total_le (M - assigned_total ss) ss HR) as Hsh.
    split; [| exact R2]. split; [exact R1 | lia].
  - destruct ((assigned_total ss <? M)
              && (assigned_total ss <? assigned_total (give_unit ss))) eqn:E.
    + apply andb_true_iff in E as [E _]. apply Z.ltb_lt in E.
      destruct (give_unit_ok ss Hok) as (U1 & U2 & U3).
      split; [| exact U2]. split; [exact U1 | lia].
    + by split.
Qed.

(** A round that hands out nothing changes nothing. *)
Lemma round_fixed (M : Z) (ss : list slot) :
  assigned_total (round M ss) ≤ assigned_total ss → round M ss = ss.
Proof.
  unfold round. cbv zeta.
  destruct (Z.ltb_spec (assigned_total ss)
                       (assigned_total (proportional_round M ss))) as [Hp | _];
    [lia |].
  destruct (Z.ltb_spec (assigned_total ss) M) as [_ | _]; simpl;
    [| reflexivity].
  destruct (Z.ltb_spec (assigned_total ss) (assigned_total (give_unit ss)));
    [lia | reflexivity].
Qed.

Lemma redistribute_ok (fuel : nat) :
  ∀ (M : Z) (ss : list slot),
    distribution_ok M ss →
    distribution_ok M (redistribute fuel M ss)
    ∧ map s_consumer (redistribute fuel M ss) = map s_consumer ss.
Proof.
  induction fuel as [|fuel IH]; intros M ss Hok; simpl; [by split |].
  destruct (round_ok M ss Hok) as (Hround & Hsame).
  destruct (assigned_total ss <? assigned_total (round M ss)); [| by split].
  destruct (IH M (round M ss) Hround) as (IH1 & IH2).
  split; [exact IH1 | by rewrite IH2].
Qed.

(** With a unit of fuel for every unit that is left, and one more, the
    rounds end at a fixed point. *)
Lemma redistribute_fixed (fuel : nat) :
  ∀ (M : Z) (ss : list slot),
    distribution_ok M ss →
    (Z.to_nat (M - assigned_total ss) < fuel)%nat →
    round M (redistribute fuel M ss) = redistribute fuel M ss.
Proof.
  induction fuel as [|fuel IH]; intros M ss Hok Hfuel; [lia |].
  simpl. destruct (round_ok M ss Hok) as ((Hround & Htot) & _).
  destruct (Z.ltb_spec (assigned_total ss) (assigned_total (round M ss)))
    as [Hlt | Hge].
  - apply IH; [by split | lia].
  - by apply round_fixed.
Qed.

(** More fuel than that gives the same distribution. *)
Lemma redistribute_fuel (fuel : nat) :
  ∀ (M : Z) (ss : list slot) (extra : nat),
    distribution_ok M ss →
    (Z.to_nat (M - assigned_total ss) < fuel)%nat →
    redistribute (fuel + extra) M ss = redistribute fuel M ss.
Proof.
  induction fuel as [|fuel IH]; intros M ss extra Hok Hfuel; [lia |].
  simpl. destruct (round_ok M ss Hok) as ((Hround & Htot) & _).
  destruct (Z.ltb_spec (assigned_total ss) (assigned_total (round M ss)))
    as [Hlt | Hge]; [| reflexivity].
  apply IH; [by split | lia].
Qed.

(** At a fixed point either the whole budget is handed out or no consumer
    takes part any more. *)
Lemma fixed_point_exhausted (M : Z) (ss : list slot) :
  distribution_ok M ss →
  round M ss = ss →
  assigned_total ss = M ∨ Forall (λ s, takes_part s = false) ss.
Proof.
  intros (Hok & Htot) Hfix.
  destruct (decide (assigned_total ss = M)) as [| Hne]; [by left |]. right.
  assert (Hnone : ¬ Exists (λ s, takes_part s = true) ss).
  { intros Hex. pose proof (give_unit_progress ss Hex) as Hunit.
    revert Hfix. unfold round. cbv zeta.
    destruct (Z.ltb_spec (assigned_total ss)
                         (assigned_total (proportional_round M ss))) as [Hp | _].
    - intros Hfix. rewrite Hfix in Hp. lia.
    - destruct (Z.ltb_spec (assigned_total ss) M) as [_ | ?]; [| lia].
      destruct (Z.ltb_spec (assigned_total ss) (assigned_total (give_unit ss)))
        as [_ | ?]; [| lia].
      simpl. intros Hfix. rewrite Hfix in Hunit. lia. }
  clear -Hnone. induction ss as [|s ss IH]; constructor.
  - destruct (takes_part s) eqn:E; [| reflexivity].
    exfalso. apply Hnone. by left.
  - apply IH. intros Hex. apply Hnone. by right.
Qed.

Lemma initial_slot_ok (c : consumer) : slot_ok (initial_slot c).
Proof.
  unfold slot_ok; simpl. split; intros; lia.
Qed.

Lemma initial_slots_total (cs : list consumer) :
  assigned_total (map initial_slot cs) = sum_min cs.
Proof. induction cs as [|c cs IH]; simpl; [reflexivity | by rewrite IH]. Qed.

Lemma initial_slots_consumers (cs : list consumer) :
  map s_consumer (map initial_slot cs) = cs.
Proof. induction cs as [|c cs IH]; simpl; [reflexivity | by rewrite IH]. Qed.

Lemma initial_slots_all_ok (cs : list consumer) :
  Forall slot_ok (map initial_slot cs).
Proof.
  induction cs as [|c cs IH]; simpl; constructor;
    [apply initial_slot_ok | exact IH].
Qed.

Lemma initial_slots_ok (M : Z) (cs : list consumer) :
  sum_min cs ≤ M →
  distribution_ok M (map initial_slot cs).
Proof.
  intros HM. split; [apply initial_slots_all_ok |].
  by rewrite initial_slots_total.
Qed.

Lemma final_slots_ok (M : Z) (cs : list consumer) :
  sum_min cs ≤ M →
  distribution_ok M (final_slots M cs)
  ∧ map s_consumer (final_slots M cs) = cs.
Proof.
  intros HM. unfold final_slots.
  destruct (redistribute_ok (S (Z.to_nat (M - sum_min cs))) M _
              (initial_slots_ok M cs HM)) as (Hok & Hsame).
  split; [exact Hok |]. by rewrite Hsame, initial_slots_consumers.
Qed.

Lemma assigned_total_map (ss : list slot) :
  assigned_total ss = total (map s_assigned ss).
Proof. induction ss as [|s ss IH]; simpl; [reflexivity | by rewrite IH]. Qed.

(** The distribution is a fixed point of the rounds: another round would
    change nothing, because the whole budget is handed out or because no
    consumer takes part any more. *)
Lemma distribute_fixed_point (M : Z) (cs : list consumer) :
  sum_min cs ≤ M →
  round M (final_slots M cs) = final_slots M cs
  ∧ (total (distribute M cs) = M
     ∨ Forall (λ s, takes_part s = false) (final_slots M cs)).
Proof.
  intros HM.
  assert (Hfix : round M (final_slots M cs) = final_slots M cs).
  { unfold final_slots.
    apply redistribute_fixed; [by apply initial_slots_ok |].
    rewrite initial_slots_total. lia. }
  split; [exact Hfix |].
  destruct (fixed_point_exhausted M _ (proj1 (final_slots_ok M cs HM)) Hfix)
    as [Hall | Hnone]; [left | by right].
  unfold distribute. by rewrite <- assigned_total_map.
Qed.

Lemma distribute_fuel (M : Z) (cs : list consumer) (extra : nat) :
  sum_min cs ≤ M →
  map s_assigned
      (redistribute (S (Z.to_nat (M - sum_min cs)) + extra) M
                    (map initial_slot cs))
  = distribute M cs.
Proof.
  intros HM. unfold distribute, final_slots.
  rewrite redistribute_fuel; [reflexivity | by apply initial_slots_ok |].
  rewrite initial_slots_total. lia.
Qed.








(** ** Progress in several calls *)

(** A step within the budget changes the budget of the node and the
    indicator it is wired to, and nothing else. *)
Lemma step_within_budget (k : Z) (w : world) (a : N) (calls : list indicator_call) :
  step_assertion (this w) = true →
  m_pi (this w) = Some a →
  indicators w !! a = Some calls →
  in_range64 (m_stepsLeft (this w)) →
  0 ≤ k ≤ m_stepsLeft (this w) →
  step k w =
    Returns tt
      {| this := set_m_stepsLeft (m_stepsLeft (this w) - k) (this w);
         the_node_map := the_node_map w;
         log_warning := log_warning w;
         indicators := <[a := calls ++ [call_step k]]> (indicators w) |}.
Proof.
  intros Hassert Hpi Hind Hs Hk.
  unfold step; unfold_method. rewrite Hassert.
  destruct (Z.ltb_spec (m_stepsLeft (this w)) k) as [Hlt | _]; [lia |].
  unfold indicator_step.
  destruct w as [n nmap lg ind]; destruct n; cbn -[wrap64] in *.
  subst m_pi0. rewrite Hind.
  unfold on_this, set_indicators, set_m_stepsLeft; cbn -[wrap64].
  rewrite wrap64_in_range; [reflexivity |].
  unfold in_range64 in *. lia.
Qed.

Lemma total_nonneg (ks : list Z) : Forall in_range64 ks → 0 ≤ total ks.
Proof.
  induction 1 as [|k ks [Hk _] _ IH]; simpl; lia.
Qed.

(** X1. A run of [step] calls whose amounts add up to no more than the budget:
    every call returns, the overflow handler is never reached (nothing is
    logged), the budget goes down by the sum, the indicator receives the
    calls in order, and nothing else changes. *)
Theorem step_all_within_budget (ks : list Z) :
  ∀ (w : world) (a : N) (calls : list indicator_call),
    step_assertion (this w) = true →
    m_pi (this w) = Some a →
    indicators w !! a = Some calls →
    in_range64 (m_stepsLeft (this w)) →
    Forall in_range64 ks →
    total ks ≤ m_stepsLeft (this w) →
    step_all ks w =
      Returns tt
        {| this := set_m_stepsLeft (m_stepsLeft (this w) - total ks) (this w);
           the_node_map := the_node_map w;
           log_warning := log_warning w;
           indicators := <[a := calls ++ map call_step ks]> (indicators w) |}.
Proof.
  induction ks as [|k ks IH]; intros w a calls Hassert Hpi Hind Hs Hks Htot.
  - simpl. unfold_method. rewrite Z.sub_0_r, app_nil_r, (insert_id _ _ _ Hind).
    destruct w as [n ? ? ?]; destruct n; reflexivity.
  - inversion Hks as [|? ? Hk Hks']; subst.
    pose proof (total_nonneg ks Hks') as Hnn.
    simpl in Htot.
    assert (Hk' : 0 ≤ k ≤ m_stepsLeft (this w)) by (destruct Hk; lia).
    change (step_all (k :: ks) w) with (method_bind (λ _, step_all ks) (step k) w).
    unfold method_bind.
    rewrite (step_within_budget k w a calls Hassert Hpi Hind Hs Hk').
    destruct w as [n nmap lg ind]; destruct n; cbn in *.
    rewrite (IH _ a (calls ++ [call_step k])); cbn;
      [| exact Hassert | exact Hpi | apply lookup_insert_eq
       | unfold in_range64 in *; lia | exact Hks' | lia].
    unfold set_m_stepsLeft; cbn.
    rewrite insert_insert_eq, <- app_assoc; cbn.
    replace (m_stepsLeft0 - k - total ks) with (m_stepsLeft0 - (k + total ks)) by lia.
    reflexivity.
Qed.

(** ** More on [fetch] and [can_fetch] *)

Lemma any_cast_Some_inv (T : type_info) (a : any) (v : denote T) :
  any_cast T a = Some v → a = any_of T v.
Proof.
  destruct a as [|T' v']; simpl; [discriminate |].
  destruct (decide (T' = T)) as [e|]; [| discriminate].
  destruct e. simpl. by intros [= ->].
Qed.

(** The three ways [fetch] can go, by what the map holds for the key. *)
Lemma fetch_cases (T : type_info) (key : string) (w : world) :
  match m_values (this w) !! key with
  | None =>
      fetch T key w =
        Throws (invalid_argument_exception
                  ("Tried to fetch nonexistent key '" +:+ key
                   +:+ "' of type " +:+ type_name T)) w
  | Some (a, _) =>
      match any_cast T a with
      | Some v => fetch T key w = Returns v w
      | None =>
          fetch T key w =
            Throws (invalid_argument_exception
                      ("Trying to fetch key '" +:+ key +:+ "' of type "
                       +:+ type_name T +:+ " but forwarded data was of type "
                       +:+ any_type_name a +:+ ". Message was: "
                       +:+ bad_any_cast_what)) w
      end
  end.
Proof.
  unfold fetch, values_count; unfold_method.
  destruct (m_values (this w) !! key) as [[a e]|] eqn:Hl; cbn -[any_cast];
    [| reflexivity].
  unfold values_index. rewrite Hl; cbn -[any_cast].
  destruct (any_cast T a); [reflexivity |]. by rewrite Hl.
Qed.

Lemma fetch_returns_holds (T : type_info) (key : string) (v : denote T)
    (w w' : world) :
  fetch T key w = Returns v w' →
  w' = w ∧ ∃ e, m_values (this w) !! key = Some (any_of T v, e).
Proof.
  pose proof (fetch_cases T key w) as Hc.
  intros Hf. rewrite Hf in Hc.
  destruct (m_values (this w) !! key) as [[a e]|]; [| discriminate Hc].
  destruct (any_cast T a) as [v0|] eqn:Hcast; [| discriminate Hc].
  injection Hc as -> ->. split; [reflexivity |].
  exists e. by rewrite (any_cast_Some_inv T a v0 Hcast).
Qed.

(** X2. [fetch<T>(key)] returns [v] exactly when the node holds [v] at type
    [T] under the key; it then leaves everything as it was. *)
Theorem fetch_returns_iff (T : type_info) (key : string) (v : denote T)
    (w w' : world) :
  fetch T key w = Returns v w'
  ↔ w' = w ∧ ∃ e, m_values (this w) !! key = Some (any_of T v, e).
Proof.
  split; [apply fetch_returns_holds |].
  pose proof (fetch_cases T key w) as Hc.
  intros [-> [e He]]. rewrite He in Hc. by rewrite any_cast_same in Hc.
Qed.

(** X3. A key can be fetched at one type only: two fetches of a key that both
    return were made at the same type, and returned the same value. *)
Theorem fetch_type_unique (T1 T2 : type_info) (key : string)
    (v1 : denote T1) (v2 : denote T2) (w w1 w2 : world) :
  fetch T1 key w = Returns v1 w1 →
  fetch T2 key w = Returns v2 w2 →
  T1 = T2 ∧ any_of T1 v1 = any_of T2 v2.
Proof.
  intros H1 H2.
  apply fetch_returns_holds in H1 as [_ [e1 H1]].
  apply fetch_returns_holds in H2 as [_ [e2 H2]].
  rewrite H1 in H2.
  assert (Hany : any_of T1 v1 = any_of T2 v2) by congruence.
  split; [| exact Hany].
  assert (Hty : ∀ a b : any, a = b →
                  match a, b with
                  | any_of Ta _, any_of Tb _ => Ta = Tb
                  | _, _ => True
                  end).
  { intros a b ->. by destruct b. }
  exact (Hty _ _ Hany).
Qed.

(** X4. [can_fetch] is an exact probe for the missing-key error: [fetch] throws
    the nonexistent-key message if and only if [can_fetch] is false. *)
Theorem can_fetch_nonexistent (T : type_info) (key : string) (w : world) :
  can_fetch key (this w) = false
  ↔ fetch T key w =
      Throws (invalid_argument_exception
                ("Tried to fetch nonexistent key '" +:+ key
                 +:+ "' of type " +:+ type_name T)) w.
Proof.
  pose proof (fetch_cases T key w) as Hc.
  unfold can_fetch, values_count.
  destruct (m_values (this w) !! key) as [[a e]|]; simpl.
  - split; [discriminate |]. intros Hf. rewrite Hf in Hc.
    destruct (any_cast T a); [discriminate Hc |].
    injection Hc as Hmsg. simpl in Hmsg. discriminate Hmsg.
  - by split.
Qed.

(** X5. [fetch] reads the forwarded values and nothing else: two nodes with
    the same forwarded values give a caller the same value or the same
    exception, whatever their state, name, budget or surroundings. *)
Theorem fetch_reads_only_values (T : type_info) (key : string) (w1 w2 : world) :
  m_values (this w1) = m_values (this w2) →
  result_of (fetch T key w1) = result_of (fetch T key w2).
Proof.
  intros Hv.
  pose proof (fetch_cases T key w1) as H1.
  pose proof (fetch_cases T key w2) as H2.
  rewrite Hv in H1.
  destruct (m_values (this w2) !! key) as [[a e]|].
  - destruct (any_cast T a); by rewrite H1, H2.
  - by rewrite H1, H2.
Qed.

(** ** More on shared datastructures *)

Lemma set_datastructure_cases (T : type_info) (nm : string) (v : denote T)
    (w : world) :
  match nm_datastructures (get_node_map w) !! nm with
  | None =>
      set_datastructure T nm v w =
        Throws (tpie_exception "attempted to set non-registered datastructure") w
  | Some i =>
      set_datastructure T nm v w =
        Returns tt (set_datastructures
                      (<[nm := (i.1, any_of T v)]>
                         (nm_datastructures (get_node_map w))) w)
  end.
Proof.
  unfold set_datastructure; unfold_method.
  by destruct (nm_datastructures (get_node_map w) !! nm).
Qed.

Lemma get_datastructure_cases (T : type_info) (nm : string) (w : world) :
  match nm_datastructures (get_node_map w) !! nm with
  | None =>
      get_datastructure T nm w =
        Throws (tpie_exception "attempted to get non-registered datastructure") w
  | Some i =>
      match any_cast T i.2 with
      | Some v => get_datastructure T nm w = Returns v w
      | None => get_datastructure T nm w = Throws bad_any_cast w
      end
  end.
Proof.
  unfold get_datastructure; unfold_method.
  destruct (nm_datastructures (get_node_map w) !! nm) as [i|]; [| reflexivity].
  cbn -[any_cast]. by destruct (any_cast T i.2).
Qed.

(** X6. [set_datastructure] never registers or unregisters a name and never
    touches what was registered with a name (its memory limits and
    priority); it changes nothing of the node, the node ids, the log or the
    indicators; when it throws, nothing has changed at all. *)
Theorem set_datastructure_keeps_registry (T : type_info) (nm : string)
    (v : denote T) (w : world) :
  match set_datastructure T nm v w with
  | Returns _ w' =>
      dom (nm_datastructures (get_node_map w'))
        = dom (nm_datastructures (get_node_map w))
      ∧ (∀ nm', fst <$> nm_datastructures (get_node_map w') !! nm'
                = fst <$> nm_datastructures (get_node_map w) !! nm')
      ∧ this w' = this w
      ∧ nm_owners (get_node_map w') = nm_owners (get_node_map w)
      ∧ log_warning w' = log_warning w
      ∧ indicators w' = indicators w
  | Throws _ w' => w' = w
  | Aborts _ => False
  end.
Proof.
  pose proof (set_datastructure_cases T nm v w) as Hc.
  destruct (nm_datastructures (get_node_map w) !! nm) as [i|] eqn:Hl;
    rewrite Hc; [| reflexivity].
  simpl. repeat apply conj; try reflexivity.
  - rewrite dom_insert_L.
    apply subseteq_union_1_L, singleton_subseteq_l, elem_of_dom. eauto.
  - intros nm'. destruct (decide (nm = nm')) as [<-|Hne].
    + by rewrite lookup_insert_eq, Hl.
    + by rewrite lookup_insert_ne.
Qed.

(** X7. Setting a datastructure twice is setting it to the second value: the
    first value and its type leave no trace. *)
Theorem set_datastructure_last_wins (T1 T2 : type_info) (nm : string)
    (v1 : denote T1) (v2 : denote T2) (w : world) :
  (set_datastructure T1 nm v1;; set_datastructure T2 nm v2) w
  = set_datastructure T2 nm v2 w.
Proof.
  pose proof (set_datastructure_cases T1 nm v1 w) as H1.
  pose proof (set_datastructure_cases T2 nm v2 w) as H2.
  unfold mbind, method_mbind, method_bind.
  destruct (nm_datastructures (get_node_map w) !! nm) as [i|] eqn:Hl.
  2: { rewrite H1. exact (eq_sym H2). }
  rewrite H1.
  pose proof (set_datastructure_cases T2 nm v2
                (set_datastructures
                   (<[nm := (i.1, any_of T1 v1)]>
                      (nm_datastructures (get_node_map w))) w)) as H3.
  simpl in H3. rewrite lookup_insert_eq in H3. rewrite H3. simpl.
  unfold set_datastructures; simpl. by rewrite insert_insert_eq.
Qed.

(** X8. Sets of two different registered names can be made in either order. *)
Theorem set_datastructure_commute (T1 T2 : type_info) (nm1 nm2 : string)
    (v1 : denote T1) (v2 : denote T2) (w : world) :
  nm1 ≠ nm2 →
  is_Some (nm_datastructures (get_node_map w) !! nm1) →
  is_Some (nm_datastructures (get_node_map w) !! nm2) →
  (set_datastructure T1 nm1 v1;; set_datastructure T2 nm2 v2) w
  = (set_datastructure T2 nm2 v2;; set_datastructure T1 nm1 v1) w.
Proof.
  intros Hne [i1 Hl1] [i2 Hl2].
  pose proof (set_datastructure_cases T1 nm1 v1 w) as H1.
  pose proof (set_datastructure_cases T2 nm2 v2 w) as H2.
  rewrite Hl1 in H1. rewrite Hl2 in H2.
  unfold mbind, method_mbind, method_bind. rewrite H1, H2.
  pose proof (set_datastructure_cases T2 nm2 v2
                (set_datastructures
                   (<[nm1 := (i1.1, any_of T1 v1)]>
                      (nm_datastructures (get_node_map w))) w)) as H3.
  pose proof (set_datastructure_cases T1 nm1 v1
                (set_datastructures
                   (<[nm2 := (i2.1, any_of T2 v2)]>
                      (nm_datastructures (get_node_map w))) w)) as H4.
  simpl in H3, H4.
  rewrite lookup_insert_ne, Hl2 in H3 by exact Hne.
  rewrite lookup_insert_ne, Hl1 in H4 by congruence.
  rewrite H3, H4. simpl. unfold set_datastructures; simpl.
  by rewrite insert_insert_ne.
Qed.

(** X9. A datastructure belongs to the node map, not to a node: what one node
    has set, every node that shares the node map gets. *)
Theorem datastructure_shared (T : type_info) (nm : string) (v : denote T)
    (w w1 w2 : world) :
  set_datastructure T nm v w = Returns tt w1 →
  get_node_map w2 = get_node_map w1 →
  get_datastructure T nm w2 = Returns v w2.
Proof.
  intros Hset Hmap.
  pose proof (set_datastructure_cases T nm v w) as Hc.
  destruct (nm_datastructures (get_node_map w) !! nm) as [i|];
    rewrite Hset in Hc; [| discriminate Hc].
  injection Hc as ->.
  apply (get_datastructure_lookup T nm w2 i.1 v).
  rewrite Hmap. simpl. apply lookup_insert_eq.
Qed.

(** X10. [get_datastructure<T>(name)] returns [v] exactly when the node map holds
    [v] at type [T] under the name; it then leaves everything as it was. *)
Theorem get_datastructure_returns_iff (T : type_info) (nm : string)
    (v : denote T) (w w' : world) :
  get_datastructure T nm w = Returns v w'
  ↔ w' = w ∧ ∃ i, nm_datastructures (get_node_map w) !! nm = Some (i, any_of T v).
Proof.
  pose proof (get_datastructure_cases T nm w) as Hc. split.
  - intros Hg. rewrite Hg in Hc.
    destruct (nm_datastructures (get_node_map w) !! nm) as [[i a]|];
      [| discriminate Hc].
    simpl in Hc. destruct (any_cast T a) as [v0|] eqn:Hcast; [| discriminate Hc].
    injection Hc as -> ->. split; [reflexivity |].
    exists i. by rewrite (any_cast_Some_inv T a v0 Hcast).
  - intros [-> [i Hi]]. rewrite Hi in Hc. cbn -[any_cast] in Hc.
    by rewrite any_cast_same in Hc.
Qed.

(** X11. The two errors of [get_datastructure] tell two situations apart: it
    throws the [tpie::exception] exactly when the name is not registered,
    and [bad_any_cast] exactly when the name is registered and holds no
    value of type [T] (another type, or no value yet). *)
Theorem get_datastructure_errors (T : type_info) (nm : string) (w : world) :
  (get_datastructure T nm w
     = Throws (tpie_exception "attempted to get non-registered datastructure") w
   ↔ nm_datastructures (get_node_map w) !! nm = None)
  ∧ (get_datastructure T nm w = Throws bad_any_cast w
     ↔ ∃ i a, nm_datastructures (get_node_map w) !! nm = Some (i, a)
              ∧ ¬ any_holds T a).
Proof.
  pose proof (get_datastructure_cases T nm w) as Hc.
  destruct (nm_datastructures (get_node_map w) !! nm) as [[i a]|].
  - cbn -[any_cast] in Hc.
    destruct (any_cast T a) as [v|] eqn:Hcast; rewrite Hc; split; split;
      try discriminate.
    + intros (i' & a' & [= <- <-] & Hno).
      apply any_cast_Some_inv in Hcast as ->. destruct Hno. reflexivity.
    + intros _. exists i, a. split; [reflexivity |].
      intros Hty. destruct a as [|T' v]; [exact Hty |]. simpl in Hty. subst T'.
      by rewrite any_cast_same in Hcast.
    + reflexivity.
  - rewrite Hc. split; split; try discriminate; try reflexivity.
    intros (i & a & Hl & _). discriminate Hl.
Qed.

(** ** Breadcrumbs *)

Lemma string_append_nil_r (s : string) : s +:+ EmptyString = s.
Proof.
  induction s as [|c s IH]; [reflexivity |].
  change (String c (s +:+ EmptyString) = String c s). by rewrite IH.
Qed.

Lemma string_append_assoc (s t u : string) : (s +:+ t) +:+ u = s +:+ t +:+ u.
Proof.
  induction s as [|c s IH]; [reflexivity |].
  change (String c ((s +:+ t) +:+ u) = String c (s +:+ t +:+ u)). by rewrite IH.
Qed.

Lemma string_append_empty (s t : string) :
  s +:+ t = EmptyString ↔ s = EmptyString ∧ t = EmptyString.
Proof.
  destruct s as [|c s].
  - change (t = EmptyString ↔ EmptyString = EmptyString ∧ t = EmptyString).
    split; [by split | by intros [_ ->]].
  - change (String c (s +:+ t) = EmptyString
            ↔ String c s = EmptyString ∧ t = EmptyString).
    split; [discriminate | by intros [? _]].
Qed.

Lemma set_breadcrumb_name_eq (b : string) (n : node) :
  name (m_parameters (set_breadcrumb b n))
  = if decide (name (m_parameters n) = EmptyString) then b
    else b +:+ " | " +:+ name (m_parameters n).
Proof.
  destruct n as [t p av vs dss fp sl pi st pp po]; simpl.
  destruct (decide (name p = EmptyString)) as [E|NE].
  - by rewrite bool_decide_eq_true_2.
  - by rewrite bool_decide_eq_false_2.
Qed.

(** X12. [set_breadcrumb] loses nothing: the new name begins with the breadcrumb
    and ends with the old name, and it is empty only when both are. *)
Theorem set_breadcrumb_keeps_name (b : string) (n : node) :
  let old := name (m_parameters n) in
  let new := name (m_parameters (set_breadcrumb b n)) in
  (∃ rest, new = b +:+ rest)
  ∧ (∃ front, new = front +:+ old)
  ∧ (new = EmptyString ↔ b = EmptyString ∧ old = EmptyString).
Proof.
  cbv zeta. rewrite set_breadcrumb_name_eq.
  destruct (decide (name (m_parameters n) = EmptyString)) as [E|NE].
  - rewrite E. split; [| split].
    + exists EmptyString. by rewrite string_append_nil_r.
    + exists b. by rewrite string_append_nil_r.
    + split; [by intros -> | by intros [-> _]].
  - split; [| split].
    + by eexists.
    + exists (b +:+ " | "). by rewrite string_append_assoc.
    + split.
      * intros Hem. apply string_append_empty in Hem as [_ Hem].
        discriminate Hem.
      * intros [_ Hold]. contradiction.
Qed.

Lemma join_breadcrumbs_nonempty (l : list string) :
  l ≠ [] → Forall (λ b, b ≠ EmptyString) l → join_breadcrumbs l ≠ EmptyString.
Proof.
  destruct l as [|x rest]; [done |]. intros _ Hall.
  inversion Hall as [|? ? Hx _]; subst. simpl.
  destruct rest; [exact Hx |].
  intros Hem. apply string_append_empty in Hem as [Hem _]. contradiction.
Qed.

(** X13. Breadcrumbs that are not empty, set one after the other, give the name
    that lists them from the outermost to the innermost, then the name the
    node had, separated by [" | "]. *)
Theorem set_breadcrumbs_join (bs : list string) (n : node) :
  Forall (λ b, b ≠ EmptyString) bs →
  name (m_parameters (set_breadcrumbs bs n))
  = join_breadcrumbs
      (bs ++ if decide (name (m_parameters n) = EmptyString) then []
             else [name (m_parameters n)]).
Proof.
  intros Hbs.
  set (tail := if decide (name (m_parameters n) = EmptyString) then []
               else [name (m_parameters n)]).
  assert (Htail : Forall (λ b, b ≠ EmptyString) tail).
  { subst tail. destruct (decide _); repeat constructor. assumption. }
  induction Hbs as [|b bs Hb Hbs IH].
  - simpl. subst tail. destruct (decide _) as [E|NE]; simpl; by rewrite ?E.
  - change (set_breadcrumbs (b :: bs) n)
      with (set_breadcrumb b (set_breadcrumbs bs n)).
    rewrite set_breadcrumb_name_eq, IH.
    assert (Hall : Forall (λ b, b ≠ EmptyString) (bs ++ tail))
      by (apply Forall_app; by split).
    simpl. destruct (bs ++ tail) as [|x rest] eqn:Hl; simpl.
    + reflexivity.
    + rewrite decide_False; [reflexivity |].
      apply (join_breadcrumbs_nonempty (x :: rest)); [done | exact Hall].
Qed.

End Properties.

(** ** Concrete runs *)

Lemma set_state_in_begin_from_fresh :
  ¬ (get_state sample_node ≠ STATE_AFTER_PROPAGATE →
     get_state (set_state STATE_IN_BEGIN sample_node) = get_state sample_node).
Proof.
  intros Hclaim. simpl in Hclaim.
  assert (Hne : STATE_FRESH ≠ STATE_AFTER_PROPAGATE) by discriminate.
  specialize (Hclaim Hne). discriminate Hclaim.
Qed.

Lemma go_not_initiator_witness :
  override_go plain_class = None
  ∧ go plain_class (sample_world sample_node)
    = Throws not_initiator_node
        (log_append (warning_text "node subclass 4sink is not an initiator node")
                    (sample_world sample_node))
  ∧ is_Some (override_go initiator_class).
Proof.
  split; [reflexivity |]. split.
  - apply (proj1 (go_not_initiator plain_class (sample_world sample_node))).
    reflexivity.
  - apply (proj2 (go_not_initiator initiator_class (sample_world sample_node))
             (sample_world sample_node)).
    reflexivity.
Defined.

Lemma copy_preserves_token_witness :
  nm_owners (node_copy sample_node 300%N sample_map).2 !! 7 = Some 300%N
  ∧ nm_owners (node_copy sample_node 300%N sample_map).2 !! 8 = Some 200%N.
Proof.
  pose proof (copy_preserves_token sample_node 300%N sample_map) as (_ & Hid & Hother & _).
  split; [exact Hid |].
  rewrite (Hother 8); [reflexivity | discriminate].
Defined.

Lemma step_charges_budget_witness :
  ∃ w', step 15 (sample_world running_node) = Returns tt w'
        ∧ m_stepsLeft (this w') = 0
        ∧ log_warning w' = [step_overflow_diagnostic EmptyString 10].
Proof.
  assert (Hs : in_range64 (m_stepsLeft (this (sample_world running_node))))
    by (unfold in_range64, size_type_max; simpl; lia).
  assert (Hk : in_range64 15) by (unfold in_range64, size_type_max; lia).
  destruct (step_charges_budget 15 (sample_world running_node) 1%N []
              eq_refl eq_refl eq_refl Hs Hk)
    as (w' & Hrun & _ & _ & _ & Hover).
  exists w'. split; [exact Hrun |].
  apply Hover. simpl. lia.
Defined.

Lemma step_assertion_states_witness :
  step 1 (sample_world sample_node) = Aborts assertion_failed
  ∧ step 1 (sample_world running_node) ≠ Aborts assertion_failed.
Proof.
  split.
  - apply (step_assertion_states 1 (sample_world sample_node)).
    simpl. intros [Hs | [Hs | Hs]]; discriminate Hs.
  - apply (step_assertion_states 1 (sample_world running_node)).
    simpl. left. reflexivity.
Defined.


Lemma forwarded_explicit_sticky_witness :
  add_forwarded_data "n_items" (@any_of sample_universe ty_size 50) false explicit_node
    = explicit_node
  ∧ m_values (add_forwarded_data "n_items" (@any_of sample_universe ty_size 50)
                                 true explicit_node) !! "n_items"
    = Some (@any_of sample_universe ty_size 50, true).
Proof.
  split.
  - apply (proj1 (forwarded_explicit_sticky
                    "n_items" (@any_of sample_universe ty_size 50) false explicit_node)
             (@any_of sample_universe ty_size 100));
      reflexivity.
  - apply (proj1 (proj2 (forwarded_explicit_sticky
                    "n_items" (@any_of sample_universe ty_size 50) true explicit_node))).
    left. reflexivity.
Defined.

Lemma fetch_typed_witness :
  @fetch sample_universe ty_size "n_items" (sample_world explicit_node)
    = Returns 100 (sample_world explicit_node)
  ∧ @fetch sample_universe ty_size "n_bytes" (sample_world explicit_node)
    = Throws (invalid_argument_exception
                "Tried to fetch nonexistent key 'n_bytes' of type m")
             (sample_world explicit_node)
  ∧ ∃ what, @fetch sample_universe ty_string "n_items" (sample_world explicit_node)
            = Throws (invalid_argument_exception what) (sample_world explicit_node).
Proof.
  repeat apply conj.
  - apply (proj1 (@fetch_typed sample_universe ty_size "n_items"
                    (sample_world explicit_node)) 100 true).
    reflexivity.
  - apply (proj1 (proj2 (@fetch_typed sample_universe ty_size "n_bytes"
                           (sample_world explicit_node)))).
    reflexivity.
  - eexists.
    apply (proj2 (proj2 (@fetch_typed sample_universe ty_string "n_items"
                           (sample_world explicit_node)))
             (@any_of sample_universe ty_size 100) true).
    + reflexivity.
    + simpl. discriminate.
Defined.

Lemma datastructure_set_get_witness :
  (∃ w1, @set_datastructure sample_universe ty_size "table" 42 (sample_world sample_node)
           = Returns tt w1
         ∧ @get_datastructure sample_universe ty_size "table" w1 = Returns 42 w1
         ∧ @get_datastructure sample_universe ty_string "table" w1
           = Throws bad_any_cast w1)
  ∧ @set_datastructure sample_universe ty_size "heap" 42 (sample_world sample_node)
    = Throws (tpie_exception "attempted to set non-registered datastructure")
             (sample_world sample_node).
Proof.
  split.
  - destruct (proj2 (@datastructure_set_get sample_universe ty_size "table" 42
                       (sample_world sample_node)))
      as (w1 & Hset & Hget).
    + eexists. reflexivity.
    + exists w1. split; [exact Hset |].
      destruct (Hget w1 (sets_other_refl "table" w1)) as [Hsame Hother].
      split; [exact Hsame |]. apply Hother. discriminate.
  - apply (proj1 (@datastructure_set_get sample_universe ty_size "heap" 42
                    (sample_world sample_node))).
    reflexivity.
Defined.

(** ** The scenarios of the spec *)

(** Memory split: two nodes [(min=1, max=10)] with weights 1 and 3. *)
Example memory_split_within_budget :
  distribute 8 [node_consumer (memory_node 1 10 1);
                node_consumer (memory_node 1 10 3)] = [2; 6].
Proof. vm_compute. reflexivity. Qed.

(** On a tie the unit goes to the node of lower id. *)
Example memory_split_tie :
  distribute 5 [node_consumer (memory_node 1 10 1);
                node_consumer (memory_node 1 10 1)] = [3; 2].
Proof. vm_compute. reflexivity. Qed.

(** The rounds go on until the budget is handed out. *)
Example memory_split_to_the_end :
  distribute 99 [node_consumer (memory_node 0 1000 1);
                 node_consumer (memory_node 0 1000 1);
                 node_consumer (memory_node 0 1000 98)] = [0; 0; 99].
Proof. vm_compute. reflexivity. Qed.

(** A node with [max = min = 0] receives nothing, and neither does one
    whose memory fraction is zero. *)
Example memory_split_skips :
  distribute 20 [node_consumer (memory_node 0 0 1);
                 node_consumer (memory_node 2 10 0);
                 node_consumer (memory_node 1 100 1)] = [0; 2; 18].
Proof. vm_compute. reflexivity. Qed.

(** A priority that is not positive earns a datastructure no share. *)
Example memory_negative_priority :
  assign_memory 10 [memory_node 0 1000 2]
    [("t", {| ds_min := 0; ds_max := 1000; ds_priority := (-1)%Q |})]
  = inr ([set_available_memory 10 (memory_node 0 1000 2)], [("t", 0)]).
Proof. vm_compute. reflexivity. Qed.

(** Bounds that are crossed (a min above the max) cannot both be met: the
    node keeps its min. *)
Example memory_crossed_bounds :
  distribute 10 [node_consumer (memory_node 5 3 1)] = [5].
Proof. vm_compute. reflexivity. Qed.

Example memory_split_clamped :
  distribute 100 [node_consumer (memory_node 1 10 1);
                  node_consumer (memory_node 1 10 3)] = [10; 10].
Proof. vm_compute. reflexivity. Qed.

Example memory_exact_minimum :
  distribute 5 [node_consumer (memory_node 2 10 1);
                node_consumer (memory_node 3 10 3)] = [2; 3].
Proof. vm_compute. reflexivity. Qed.

Example memory_insufficient :
  assign_memory 4 [memory_node 2 10 1; memory_node 3 10 3] []
  = inl insufficient_memory.
Proof. vm_compute. reflexivity. Qed.

(** Step overflow: a budget of 10, [step(15)], then [step(1)]. *)
Example step_overflow_twice :
  ∃ w1 w2,
    step 15 (sample_world running_node) = Returns tt w1
    ∧ step 1 w1 = Returns tt w2
    ∧ m_stepsLeft (this w1) = 0
    ∧ m_stepsLeft (this w2) = 0
    ∧ length (log_warning w1) = 1%nat
    ∧ length (log_warning w2) = 2%nat
    ∧ indicators w2 !! 1%N = Some [call_step 15; call_step 1].
Proof.
  do 2 eexists. split; [vm_compute; reflexivity |].
  split; [vm_compute; reflexivity |].
  repeat split.
Qed.

(** Forward override: an implicit 50 arrives after an explicit 100. *)
Example forward_override :
  @fetch sample_universe ty_size "n_items"
    (sample_world (add_forwarded_data "n_items" (@any_of sample_universe ty_size 50)
                                      false explicit_node))
  = Returns 100 (sample_world explicit_node).
Proof. vm_compute. reflexivity. Qed.

Lemma step_all_within_budget_witness :
  ∃ w', step_all [3; 0; 7] (sample_world running_node) = Returns tt w'
        ∧ m_stepsLeft (this w') = 0
        ∧ log_warning w' = []
        ∧ indicators w' !! 1%N = Some [call_step 3; call_step 0; call_step 7].
Proof.
  eexists. split.
  - apply (step_all_within_budget [3; 0; 7] (sample_world running_node) 1%N []).
    + reflexivity.
    + reflexivity.
    + reflexivity.
    + unfold in_range64, size_type_max; simpl; lia.
    + repeat constructor; unfold size_type_max; lia.
    + simpl. lia.
  - repeat split.
Defined.

Lemma fetch_type_unique_witness :
  ty_size = ty_size
  ∧ @any_of sample_universe ty_size 100 = @any_of sample_universe ty_size 100.
Proof.
  apply (@fetch_type_unique sample_universe ty_size ty_size "n_items" 100 100
           (sample_world explicit_node) (sample_world explicit_node)
           (sample_world explicit_node)); reflexivity.
Defined.

Lemma fetch_reads_only_values_witness :
  result_of (@fetch sample_universe ty_size "n_items"
               (sample_world (set_state STATE_IN_END
                                (set_breadcrumb "sort" explicit_node))))
  = Some (inr 100).
Proof.
  rewrite <- (@fetch_reads_only_values sample_universe ty_size "n_items"
                (sample_world explicit_node)
                (sample_world (set_state STATE_IN_END
                                 (set_breadcrumb "sort" explicit_node))));
    reflexivity.
Defined.

Lemma set_datastructure_commute_witness :
  (@set_datastructure sample_universe ty_size "table" 1;;
   @set_datastructure sample_universe ty_string "index" "by name") two_tables_world
  = (@set_datastructure sample_universe ty_string "index" "by name";;
     @set_datastructure sample_universe ty_size "table" 1) two_tables_world.
Proof.
  apply (@set_datastructure_commute sample_universe ty_size ty_string
           "table" "index" 1 "by name" two_tables_world).
  - discriminate.
  - eexists. reflexivity.
  - eexists. reflexivity.
Defined.

Lemma datastructure_shared_witness :
  ∃ w1, @set_datastructure sample_universe ty_size "table" 42
          (sample_world sample_node) = Returns tt w1
        ∧ @get_datastructure sample_universe ty_size "table"
            (on_this (λ _, running_node) w1)
          = Returns 42 (on_this (λ _, running_node) w1).
Proof.
  eexists. split; [vm_compute; reflexivity |].
  eapply (@datastructure_shared sample_universe ty_size "table" 42
            (sample_world sample_node)); vm_compute; reflexivity.
Defined.


Lemma set_breadcrumbs_join_witness :
  name (m_parameters (set_breadcrumbs ["sort"; "merge"]
                        (set_breadcrumb "input" sample_node)))
  = "sort | merge | input".
Proof.
  rewrite (@set_breadcrumbs_join sample_universe ["sort"; "merge"]
             (set_breadcrumb "input" sample_node)).
  - reflexivity.
  - repeat constructor; discriminate.
Defined.
